(** * The OpenAI streaming client of lmql (src/lmql/runtime/bopenai/openai_api.py)

    A shallow embedding of the request pipeline: chat-role segmentation,
    endpoint resolution, capacity admission, the incremental event-stream
    decoder and the chat response normaliser, together with the properties
    proved about them. *)

From Corelib Require Import PrimFloat.
From Stdlib Require Import String Ascii List NArith ZArith Bool Lia Arith.
Import ListNotations.

(** ** Python strings

    A Python [str] is a sequence of Unicode code points; a code point is an
    [N].  Literals of the source are written [str "..."]. *)

Definition pystr := list N.

Definition str (s : string) : pystr := map N_of_ascii (list_ascii_of_string s).

Fixpoint str_eqb (a b : pystr) : bool :=
  match a, b with
  | [], [] => true
  | c :: a', d :: b' => N.eqb c d && str_eqb a' b'
  | _, _ => false
  end.

(** [s.startswith(p)] *)
Fixpoint startswith (s p : pystr) {struct p} : bool :=
  match p, s with
  | [], _ => true
  | c :: p', d :: s' => N.eqb c d && startswith s' p'
  | _ :: _, [] => false
  end.

(** [s.endswith(p)] *)
Definition endswith (s p : pystr) : bool := startswith (rev s) (rev p).

(** [sub in s] *)
Fixpoint py_in (sub s : pystr) : bool :=
  startswith s sub ||
  match s with
  | [] => false
  | _ :: s' => py_in sub s'
  end.

(** [s.partition(sep)] when [sep] occurs: the text before the leftmost
    occurrence of [sep] and the text after it; [None] when [sep] does not
    occur. *)
Fixpoint cut (s sep : pystr) : option (pystr * pystr) :=
  if startswith s sep then Some ([], skipn (length sep) s)
  else match s with
       | [] => None
       | c :: s' =>
           match cut s' sep with
           | Some (a, b) => Some (c :: a, b)
           | None => None
           end
       end.

(** [s.split(sep)] for a non-empty [sep]: occurrences are taken from the
    left and do not overlap. The fuel bounds the number of separators. *)
Fixpoint split_fuel (fuel : nat) (s sep : pystr) : list pystr :=
  match fuel with
  | O => [s]
  | S fuel' =>
      match cut s sep with
      | None => [s]
      | Some (a, b) => a :: split_fuel fuel' b sep
      end
  end.

Definition py_split (s sep : pystr) : list pystr := split_fuel (length s) s sep.

(** [sep.join(l)] *)
Fixpoint py_join (sep : pystr) (l : list pystr) : pystr :=
  match l with
  | [] => []
  | [a] => a
  | a :: l' => a ++ sep ++ py_join sep l'
  end.

(** [c.isspace()] for one code point (the whitespace table of CPython). *)
Definition isspace (c : N) : bool :=
  ((9 <=? c) && (c <=? 13) || (28 <=? c) && (c <=? 32) ||
   (c =? 133) || (c =? 160) || (c =? 5760) ||
   (8192 <=? c) && (c <=? 8202) ||
   (c =? 8232) || (c =? 8233) || (c =? 8239) || (c =? 8287) ||
   (c =? 12288))%N.

Fixpoint lstrip (s : pystr) : pystr :=
  match s with
  | [] => []
  | c :: s' => if isspace c then lstrip s' else s
  end.

Definition rstrip (s : pystr) : pystr := rev (lstrip (rev s)).

(** [s.strip()] *)
Definition strip (s : pystr) : pystr := rstrip (lstrip s).

(** [s[n:]] and [s[:n]] for [0 <= n] are [skipn n s] and [firstn n s];
    [s[a:b]] for [0 <= a <= b] is [slice s a b]. *)
Definition slice (s : pystr) (a b : nat) : pystr := firstn (b - a) (skipn a s).

(** ** JSON values, Python exceptions

    [json.loads] produces dictionaries, lists, strings, integers, floats,
    booleans and [None]; a dictionary keeps its keys in insertion order. *)

#[warnings="-register-all"]
Inductive json : Type :=
| JNull
| JBool (b : bool)
| JInt (z : Z)
| JFloat (f : float)
| JStr (s : pystr)
| JList (l : list json)
| JDict (kv : list (pystr * json)).

(** The exceptions the module can raise. [OpenAIStreamError] and
    [OpenAIRateLimitError] are the two classes the source declares; their
    argument here is the text the source builds from the payload, without
    the timing and capacity diagnostics it appends. *)
Inductive exn : Type :=
| AssertionError
| IndexError
| KeyError (key : pystr)
| TypeError
| AttributeError
| UnboundLocalError
| UnicodeDecodeError
| OpenAIStreamError (args : list pystr)
| OpenAIRateLimitError (message : pystr).

Inductive result (A : Type) : Type :=
| Ok (a : A)
| Raise (e : exn).
Arguments Ok {A} a.
Arguments Raise {A} e.

Definition bind {A B : Type} (r : result A) (k : A -> result B) : result B :=
  match r with
  | Ok a => k a
  | Raise e => Raise e
  end.

Notation "x <- r ;; k" := (bind r (fun x => k))
  (at level 61, r at next level, right associativity).

(** *** Dictionaries *)

Fixpoint dict_get (kv : list (pystr * json)) (k : pystr) : option json :=
  match kv with
  | [] => None
  | (k', v) :: kv' => if str_eqb k' k then Some v else dict_get kv' k
  end.

Definition dict_has (kv : list (pystr * json)) (k : pystr) : bool :=
  match dict_get kv k with Some _ => true | None => false end.

(** [d[k] = v]: an existing key keeps its place, a new key goes last. *)
Fixpoint dict_set (kv : list (pystr * json)) (k : pystr) (v : json)
  : list (pystr * json) :=
  match kv with
  | [] => [(k, v)]
  | (k', v') :: kv' =>
      if str_eqb k' k then (k', v) :: kv' else (k', v') :: dict_set kv' k v
  end.

(** *** Python's dynamic operations on a decoded JSON value *)

(** [k in d.keys()] *)
Definition py_in_keys (k : pystr) (d : json) : result bool :=
  match d with
  | JDict kv => Ok (dict_has kv k)
  | _ => Raise AttributeError
  end.

(** [v[k]] for a string key [k] *)
Definition py_getitem (v : json) (k : pystr) : result json :=
  match v with
  | JDict kv =>
      match dict_get kv k with
      | Some x => Ok x
      | None => Raise (KeyError k)
      end
  | _ => Raise TypeError
  end.

(** [v.get(k, default)] *)
Definition py_get (v : json) (k : pystr) (default : json) : result json :=
  match v with
  | JDict kv =>
      match dict_get kv k with
      | Some x => Ok x
      | None => Ok default
      end
  | _ => Raise AttributeError
  end.

(** [k in v] for a string [k] *)
Definition py_contains (k : pystr) (v : json) : result bool :=
  match v with
  | JDict kv => Ok (dict_has kv k)
  | JList l =>
      Ok (existsb (fun x => match x with JStr s => str_eqb s k | _ => false end) l)
  | JStr s => Ok (py_in k s)
  | _ => Raise TypeError
  end.

(** [len(v)] *)
Definition py_len (v : json) : result nat :=
  match v with
  | JDict kv => Ok (length kv)
  | JList l => Ok (length l)
  | JStr s => Ok (length s)
  | _ => Raise TypeError
  end.

(** [for c in v]: the values the loop variable takes *)
Definition py_iter (v : json) : result (list json) :=
  match v with
  | JList l => Ok l
  | JDict kv => Ok (map (fun p => JStr (fst p)) kv)
  | JStr s => Ok (map (fun c => JStr [c]) s)
  | _ => Raise TypeError
  end.

(** ** External capabilities

    The JSON parser, Unicode case mapping, the tokenizer of
    [lmql.runtime.tokenizer] and the secret of [lmql.runtime.openai_secret]
    are used by the module but defined elsewhere. *)

Class Externals : Type := {
  (** [json.loads]; [None] stands for [JSONDecodeError] *)
  json_loads : pystr -> option json;
  (** [str.lower] and [str.upper] *)
  str_lower : pystr -> pystr;
  str_upper : pystr -> pystr;
  (** [tokenizer.decode_bytes(tokenizer(text)["input_ids"])] for the
      tokenizer returned by [load_tokenizer("gpt2")] *)
  tokenizer_bytes : pystr -> list (list Byte.byte);
  (** [openai_secret] *)
  openai_secret : pystr
}.

(** ** Chat-role segmentation: [tagged_segments] *)

(** The part of the pattern [<lmql:(.*?)\/>] after [<lmql:]: the shortest
    run of characters other than a newline that is followed by [/>].
    Returns group 1 and the text after the match. *)
Fixpoint tag_body (s : pystr) : option (pystr * pystr) :=
  if startswith s (str "/>") then Some ([], skipn 2 s)
  else match s with
       | [] => None
       | c :: s' =>
           if (c =? 10)%N then None
           else match tag_body s' with
                | Some (t, r) => Some (c :: t, r)
                | None => None
                end
       end.

(** The pattern anchored at the start of [s]. *)
Definition match_tag (s : pystr) : option (pystr * pystr) :=
  if startswith s (str "<lmql:") then tag_body (skipn 6 s) else None.

(** [re.search]: the leftmost match, as the text before it, group 1 and the
    text after it. *)
Fixpoint search_tag (s : pystr) : option (pystr * pystr * pystr) :=
  match match_tag s with
  | Some (t, r) => Some ([], t, r)
  | None =>
      match s with
      | [] => None
      | c :: s' =>
          match search_tag s' with
          | Some (b, t, r) => Some (c :: b, t, r)
          | None => None
          end
      end
  end.

(** A match object: [m.start()], [m.end()] and [m.group(1)]. *)
Record rmatch : Type := { m_start : nat; m_end : nat; m_group1 : pystr }.

(** [re.finditer]: successive matches, each search resuming at the end of
    the previous match; [s] is the text from position [pos] on. *)
Fixpoint finditer_fuel (fuel pos : nat) (s : pystr) : list rmatch :=
  match fuel with
  | O => []
  | S fuel' =>
      match search_tag s with
      | None => []
      | Some (b, t, r) =>
          let st := pos + length b in
          let en := st + 6 + length t + 2 in
          {| m_start := st; m_end := en; m_group1 := t |}
            :: finditer_fuel fuel' en r
      end
  end.

Definition finditer (s : pystr) : list rmatch := finditer_fuel (length s) 0 s.

(** A segment [{"tag": ..., "text": ...}]; the tag [None] is Python's
    [None]. *)
Record segment : Type := { tag : option pystr; text : pystr }.

(** The loop state of [tagged_segments]. *)
Record seg_state : Type :=
  { segments : list segment; current_tag : option pystr; offset : nat }.

Definition seg_step (s : pystr) (st : seg_state) (m : rmatch) : seg_state :=
  {| segments :=
       if 0 <? m_start m - offset st
       then segments st ++
            [{| tag := current_tag st; text := slice s (offset st) (m_start m) |}]
       else segments st;
     current_tag := Some (m_group1 m);
     offset := m_end m |}.

Definition tagged_segments (s : pystr) : list segment :=
  let st := fold_left (seg_step s) (finditer s)
              {| segments := []; current_tag := None; offset := 0 |} in
  segments st ++ [{| tag := current_tag st; text := skipn (offset st) s |}].

(** A chat message [{"role": ..., "content": ...}]. *)
Record chat_message : Type := { role : pystr; content : pystr }.

(** What the module prints: the warning of [chat_api] for a tag that is no
    role, and the report of a frame that is not JSON. *)
Inductive printed : Type :=
| PrintInvalidTag (tag : pystr)
| PrintFailedJSON (complete_chunk : pystr).

(** The tag-to-role chain of [chat_api]; the second component is what the
    chain prints. *)
Definition role_of_tag (t : option pystr) : pystr * list printed :=
  match t with
  | None => (str "user", [])
  | Some tg =>
      if str_eqb tg (str "system") then (str "system", [])
      else if str_eqb tg (str "assistant") then (str "assistant", [])
      else if str_eqb tg (str "user") then (str "user", [])
      else (str "user", [PrintInvalidTag tg])
  end.

(** The [messages] list built by [chat_api] from the first prompt, with what
    is printed on the way. *)
Definition chat_messages (prompt : pystr) : list chat_message * list printed :=
  fold_left
    (fun acc sg =>
       let '(r, w) := role_of_tag (tag sg) in
       (fst acc ++ [{| role := r; content := text sg |}], snd acc ++ w))
    (tagged_segments prompt) ([], []).

(** ** Requests and configuration *)

(** [os.environ] *)
Definition environ := list (pystr * pystr).

Fixpoint env_get (env : environ) (k : pystr) : option pystr :=
  match env with
  | [] => None
  | (k', v) :: env' => if str_eqb k' k then Some v else env_get env' k
  end.

(** The [api_config] dictionary: the two keys the module reads. A key that is
    absent, or bound to [None], is [None]. *)
Record api_config_t : Type :=
  { cfg_endpoint : option pystr; cfg_azure_api_key : option pystr }.

(** The keyword arguments of [complete], [chat_api] and [completion_api]:
    the keys the module reads or deletes, each [None] when absent, and the
    remaining keys, which are passed on in the request body unchanged. *)
Record kwargs_t : Type := {
  model : pystr;
  prompt : option (list pystr);
  messages : option (list chat_message);
  max_tokens : option Z;
  timeout : option json;
  echo : option bool;
  logprobs : option json;
  logit_bias : option json;
  api_config : option api_config_t;
  other : list (pystr * json)
}.

Definition headers_t := list (pystr * pystr).

(** [s.replace(".", "_")] *)
Definition replace_dot (s : pystr) : pystr :=
  map (fun c => if (c =? 46)%N then 95%N else c) s.

Section Endpoints.
Context {E : Externals}.
Variable env : environ.

(** [get_azure_config]; [Ok None] is the implicit [return None]. *)
Definition get_azure_config (model : pystr) (cfg : api_config_t)
  : result (option (pystr * headers_t)) :=
  let endpoint := cfg_endpoint cfg in
  (* first check endpoint configuration *)
  match (match endpoint with
         | Some ep => if startswith ep (str "azure:") then Some ep else None
         | None => None
         end) with
  | Some ep =>
      let endpoint := str "https:" ++ skipn 6 ep in
      let env_name := replace_dot (str_upper model) in
      azure_key <-
        match cfg_azure_api_key cfg with
        | Some k => Ok k
        | None =>
            match env_get env (str "AZURE_OPENAI_" ++ env_name ++ str "_KEY") with
            | Some k => Ok k
            | None => Raise AssertionError
            end
        end ;;
      Ok (Some (endpoint,
                [(str "Content-Type", str "application/json");
                 (str "api-key", azure_key)]))
  | None =>
      (* then check env *)
      let api_type :=
        match env_get env (str "OPENAI_API_TYPE") with
        | Some t => t
        | None => str "openai"
        end in
      if str_eqb api_type (str "azure") then
        let model_env_name := replace_dot (str_upper model) in
        match env_get env (str "AZURE_OPENAI_" ++ model_env_name ++ str "_ENDPOINT") with
        | None =>
            Raise (KeyError (str "AZURE_OPENAI_" ++ model_env_name ++ str "_ENDPOINT"))
        | Some endpoint =>
            match env_get env (str "AZURE_OPENAI_" ++ model_env_name ++ str "_KEY") with
            | None => Raise AssertionError
            | Some key =>
                Ok (Some (endpoint,
                          [(str "Content-Type", str "application/json");
                           (str "api-key", key)]))
            end
        end
      else Ok None
  end.

(** [get_endpoint_and_headers]: the resolved endpoint and headers, and the
    keyword arguments after [kwargs.pop("api_config", {})]. *)
Definition get_endpoint_and_headers (kwargs : kwargs_t)
  : result (pystr * headers_t) * kwargs_t :=
  let model_ := model kwargs in
  let cfg :=
    match api_config kwargs with
    | Some c => c
    | None => {| cfg_endpoint := None; cfg_azure_api_key := None |}
    end in
  let kwargs :=
    {| model := model kwargs; prompt := prompt kwargs;
       messages := messages kwargs; max_tokens := max_tokens kwargs;
       timeout := timeout kwargs;
       echo := echo kwargs; logprobs := logprobs kwargs;
       logit_bias := logit_bias kwargs; api_config := None;
       other := other kwargs |} in
  let endpoint := cfg_endpoint cfg in
  (* try to get azure config from endpoint or env *)
  match get_azure_config model_ cfg with
  | Raise e => (Raise e, kwargs)
  | Ok (Some azure_config) => (Ok azure_config, kwargs)
  | Ok None =>
      match endpoint with
      | Some endpoint =>
          (* otherwise use custom endpoint as plain URL without authorization *)
          let endpoint :=
            if negb (endswith endpoint (str "http"))
            then str "http://" ++ endpoint
            else endpoint in
          (Ok (endpoint ++ str "/completions",
               [(str "Content-Type", str "application/json")]), kwargs)
      | None =>
          (* use standard public API config *)
          let endpoint :=
            if startswith (model kwargs) (str "gpt-3.5-turbo")
               || py_in (str "gpt-4") (model kwargs)
            then str "https://api.openai.com/v1/chat/completions"
            else str "https://api.openai.com/v1/completions" in
          (Ok (endpoint,
               [(str "Authorization", str "Bearer " ++ openai_secret);
                (str "Content-Type", str "application/json")]), kwargs)
      end
  end.
End Endpoints.

(** ** Tokenizer adapter: [tokenize] *)

Definition hex_digit (n : N) : N :=
  if (n <? 10)%N then (48 + n)%N else (87 + n)%N.

(** The text [str(t)[2:-1]] of a bytes object [t]: its [repr] without the
    leading [b'] and the closing quote. *)
Definition bytes_repr_body (t : list Byte.byte) : pystr :=
  let bs := map Byte.to_N t in
  let quote :=
    if existsb (N.eqb 39) bs && negb (existsb (N.eqb 34) bs) then 34%N else 39%N in
  flat_map
    (fun c =>
       if (c =? quote)%N || (c =? 92)%N then [92%N; c]
       else if (c =? 9)%N then str "\t"
       else if (c =? 10)%N then str "\n"
       else if (c =? 13)%N then str "\r"
       else if (c <? 32)%N || (127 <=? c)%N
            then str "\x" ++ [hex_digit (c / 16); hex_digit (c mod 16)]
       else [c])
    bs.

Section Tokenizer.
Context {E : Externals}.

(** [tokenize] *)
Definition tokenize (text : pystr) : list pystr :=
  let raw := tokenizer_bytes text in
  let raw := map bytes_repr_body raw in
  map (fun t => if negb (py_in (str "\x") t) then t else str "bytes:" ++ t) raw.
End Tokenizer.

(** ** Decoding a chunk: [chunk.decode("utf-8")] *)

Definition in_range (lo hi b : N) : bool := ((lo <=? b) && (b <=? hi))%N.

(** Strict UTF-8: [None] stands for [UnicodeDecodeError]. *)
Fixpoint utf8_decode (bs : list Byte.byte) : option pystr :=
  match bs with
  | [] => Some []
  | x0 :: r0 =>
      let b0 := Byte.to_N x0 in
      if (b0 <? 128)%N then option_map (cons b0) (utf8_decode r0)
      else if in_range 194 223 b0 then
        match r0 with
        | x1 :: r1 =>
            let b1 := Byte.to_N x1 in
            if in_range 128 191 b1
            then option_map (cons ((b0 - 192) * 64 + (b1 - 128))%N) (utf8_decode r1)
            else None
        | _ => None
        end
      else if in_range 224 239 b0 then
        match r0 with
        | x1 :: x2 :: r2 =>
            let b1 := Byte.to_N x1 in
            let b2 := Byte.to_N x2 in
            if in_range (if (b0 =? 224)%N then 160 else 128)
                        (if (b0 =? 237)%N then 159 else 191) b1
               && in_range 128 191 b2
            then option_map
                   (cons ((b0 - 224) * 4096 + (b1 - 128) * 64 + (b2 - 128))%N)
                   (utf8_decode r2)
            else None
        | _ => None
        end
      else if in_range 240 244 b0 then
        match r0 with
        | x1 :: x2 :: x3 :: r3 =>
            let b1 := Byte.to_N x1 in
            let b2 := Byte.to_N x2 in
            let b3 := Byte.to_N x3 in
            if in_range (if (b0 =? 240)%N then 144 else 128)
                        (if (b0 =? 244)%N then 143 else 191) b1
               && in_range 128 191 b2 && in_range 128 191 b3
            then option_map
                   (cons ((b0 - 240) * 262144 + (b1 - 128) * 4096
                          + (b2 - 128) * 64 + (b3 - 128))%N)
                   (utf8_decode r3)
            else None
        | _ => None
        end
      else None
  end.

(** ** The stream decoder *)

(** The locals of [chat_api] and [completion_api] that the decode loop
    reads and writes: the reassembly buffer, the frame counter, the variable
    [data] ([None] while it is unbound) and, for the chat format, the text
    received so far. *)
Record dstate : Type := {
  current_chunk : pystr;
  n_chunks : nat;
  data : option json;
  received_text : pystr
}.

Definition set_current_chunk (st : dstate) (b : pystr) : dstate :=
  {| current_chunk := b; n_chunks := n_chunks st; data := data st;
     received_text := received_text st |}.

(** How the generator ends. [FuelExhausted] is the bounded model of the
    inner [while] loop running out of steps; [drain_has_fuel] shows that it
    does not occur. *)
Inductive outcome : Type :=
| Returned
| Raised (e : exn)
| FuelExhausted.

(** How a stretch of the decode loop ends: it goes on with the next chunk
    ([Goes]), leaves the [async for], by [break] or because the source is
    exhausted ([Leaves]), or ends the generator. *)
Inductive loop_exit : Type :=
| Goes
| Leaves
| Ends (o : outcome).

(** What a stretch of the generator body produced: the events yielded, the
    lines printed, the locals and the way it ended. *)
Record stretch : Type := {
  yielded : list json;
  printed_lines : list printed;
  locals : dstate;
  exit : loop_exit
}.

Definition before (evs : list json) (pr : list printed) (r : stretch) : stretch :=
  {| yielded := evs ++ yielded r; printed_lines := pr ++ printed_lines r;
     locals := locals r; exit := exit r |}.

Definition stop (st : dstate) (x : loop_exit) : stretch :=
  {| yielded := []; printed_lines := []; locals := st; exit := x |}.

Definition with_exit (r : stretch) (x : loop_exit) : stretch :=
  {| yielded := yielded r; printed_lines := printed_lines r;
     locals := locals r; exit := x |}.

(** [while len(chunks[0]) == 0: chunks = chunks[1:]] *)
Fixpoint drop_empty (chunks : list pystr) : result (list pystr) :=
  match chunks with
  | [] => Raise IndexError
  | c :: rest => if length c =? 0 then drop_empty rest else Ok chunks
  end.

Definition DATA : pystr := str "data: ".
Definition NL_DATA : pystr := 10%N :: str "data: ".
Definition DONE : pystr := str "[DONE]".

(** Frame extraction, the head of the inner [while] loop, from its test
    to the removal of the [data: ] label: [Ok None] when the loop is left
    (by its test or by [break]), otherwise the complete frame and the new
    buffer. *)
Definition extract (current_chunk : pystr) : result (option (pystr * pystr)) :=
  if py_in DATA current_chunk then
    let chunks := py_split current_chunk NL_DATA in
    chunks <- drop_empty chunks ;;
    if length chunks =? 1 then
      (* last chunk may be incomplete *)
      Ok None
    else
      let complete_chunk := strip (hd [] chunks) in
      let current_chunk := py_join NL_DATA (tl chunks) in
      let complete_chunk :=
        if startswith complete_chunk DATA
        then skipn (length DATA) complete_chunk
        else complete_chunk in
      Ok (Some (complete_chunk, current_chunk))
  else Ok None.

Section Decoder.
Context {E : Externals}.

(** [data = json.loads(complete_chunk)] under its [try]: on a decode
    error the variable keeps what it held. *)
Definition load_frame (st : dstate) (complete_chunk : pystr)
  : option json * list printed :=
  match json_loads complete_chunk with
  | Some d => (Some d, [])
  | None => (data st, [PrintFailedJSON complete_chunk])
  end.

(** The two classes of an error message. *)
Definition raise_for_message (message : json) : exn :=
  match message with
  | JStr m =>
      if py_in (str "rate limit") (str_lower m)
      then OpenAIRateLimitError m
      else OpenAIStreamError [m]
  | _ => AttributeError
  end.

(** [if "error" in data.keys(): ... raise ...] *)
Definition check_error (d : json) : result unit :=
  has_error <- py_in_keys (str "error") d ;;
  if has_error : bool then
    err <- py_getitem d (str "error") ;;
    message <- py_getitem err (str "message") ;;
    Raise (raise_for_message message)
  else Ok tt.

(** The frame body of [completion_api], from [n_chunks += 1] to
    [yield data]. *)
Definition completion_frame (st : dstate) (complete_chunk : pystr)
  : list printed * result (json * dstate) :=
  let '(data', pr) := load_frame st complete_chunk in
  (pr,
   match data' with
   | None => Raise UnboundLocalError
   | Some d =>
       _ <- check_error d ;;
       Ok (d, {| current_chunk := current_chunk st;
                 n_chunks := S (n_chunks st);
                 data := Some d;
                 received_text := received_text st |})
   end).

(** The [logprobs] dictionary synthesised for a list of tokens. *)
Definition zero_logprobs (tokens : list pystr) : json :=
  JDict [(str "text_offset", JList (map (fun _ => JInt 0) tokens));
         (str "token_logprobs", JList (map (fun _ => JFloat PrimFloat.zero) tokens));
         (str "tokens", JList (map JStr tokens));
         (str "top_logprobs",
          JList (map (fun t => JDict [(t, JFloat PrimFloat.zero)]) tokens))].

(** One turn of [for c in data["choices"]]: the choices and the received
    text after it. *)
Definition chat_choice (acc : list json * pystr) (c : json)
  : result (list json * pystr) :=
  let '(choices, received) := acc in
  delta <- py_getitem c (str "delta") ;;
  has_content <- py_contains (str "content") delta ;;
  if negb has_content then
    n <- py_len delta ;;
    if n =? 0 then
      index <- py_getitem c (str "index") ;;
      finish_reason <- py_getitem c (str "finish_reason") ;;
      Ok (choices ++
          [JDict [(str "text", JStr []);
                  (str "index", index);
                  (str "finish_reason", finish_reason);
                  (str "logprobs", zero_logprobs [])]],
          received)
    else Ok (choices, received)
  else
    text <- py_getitem delta (str "content") ;;
    match text with
    | JStr text =>
        let tokens :=
          tokenize ((if str_eqb received [] then str " " else []) ++ text) in
        let received := received ++ text in
        index <- py_getitem c (str "index") ;;
        finish_reason <- py_getitem c (str "finish_reason") ;;
        Ok (choices ++
            [JDict [(str "text", JStr text);
                    (str "index", index);
                    (str "finish_reason", finish_reason);
                    (str "logprobs", zero_logprobs tokens)]],
            received)
    | _ => Raise TypeError
    end.

Fixpoint chat_choices (acc : list json * pystr) (cs : list json)
  : result (list json * pystr) :=
  match cs with
  | [] => Ok acc
  | c :: cs' => acc' <- chat_choice acc c ;; chat_choices acc' cs'
  end.

(** [data["choices"] = choices] *)
Definition set_choices (d : json) (choices : list json) : json :=
  match d with
  | JDict kv => JDict (dict_set kv (str "choices") (JList choices))
  | _ => d
  end.

(** The frame body of [chat_api], from [n_chunks += 1] to [yield data]. *)
Definition chat_frame (st : dstate) (complete_chunk : pystr)
  : list printed * result (json * dstate) :=
  let '(data', pr) := load_frame st complete_chunk in
  (pr,
   match data' with
   | None => Raise UnboundLocalError
   | Some d =>
       _ <- check_error d ;;
       cs <- py_getitem d (str "choices") ;;
       cs <- py_iter cs ;;
       r <- chat_choices ([], received_text st) cs ;;
       let d := set_choices d (fst r) in
       Ok (d, {| current_chunk := current_chunk st;
                 n_chunks := S (n_chunks st);
                 data := Some d;
                 received_text := snd r |})
   end).
End Decoder.

Section Loop.
Context {E : Externals}.

(** The frame body: [completion_frame] or [chat_frame]. The two decode
    loops of the source differ in nothing else. *)
Variable frame : dstate -> pystr -> list printed * result (json * dstate).

(** The inner loop [while "data: " in current_chunk: ...]: each turn
    extracts a frame and runs the frame body on it. *)
Fixpoint drain (fuel : nat) (st : dstate) : stretch :=
  match fuel with
  | O => stop st (Ends FuelExhausted)
  | S fuel' =>
      match extract (current_chunk st) with
      | Raise e => stop st (Ends (Raised e))
      | Ok None => stop st Goes
      | Ok (Some (complete_chunk, rest)) =>
          let st := set_current_chunk st rest in
          if length (strip complete_chunk) =? 0 then drain fuel' st
          else if str_eqb complete_chunk DONE then stop st (Ends Returned)
          else
            match frame st complete_chunk with
            | (pr, Raise e) => before [] pr (stop st (Ends (Raised e)))
            | (pr, Ok (ev, st')) => before [ev] pr (drain fuel' st')
            end
      end
  end.

(** One turn of [async for chunk in resp.content.iter_any()]. *)
Definition feed (st : dstate) (chunk : list Byte.byte) : stretch :=
  match utf8_decode chunk with
  | None => stop st (Ends (Raised UnicodeDecodeError))
  | Some chunk =>
      let st := set_current_chunk st (current_chunk st ++ chunk) in
      let is_done := endswith (strip (current_chunk st)) DONE in
      let r := drain (S (length (current_chunk st))) st in
      match exit r with
      | Goes => if is_done then with_exit r Leaves else r
      | _ => r
      end
  end.

(** The whole [async for] loop over the chunks the server sends. *)
Fixpoint stream_loop (st : dstate) (chunks : list (list Byte.byte)) : stretch :=
  match chunks with
  | [] => stop st Leaves
  | chunk :: rest =>
      let r := feed st chunk in
      match exit r with
      | Goes => before (yielded r) (printed_lines r) (stream_loop (locals r) rest)
      | _ => r
      end
  end.

(** The code after the loop, from [if current_chunk.strip() == "[DONE]"]
    on: what is left in the buffer is the sentinel or an error payload. *)
Definition after_stream (st : dstate) : outcome :=
  if str_eqb (strip (current_chunk st)) DONE then Returned
  else
    match json_loads (strip (current_chunk st)) with
    | None =>
        Raised (OpenAIStreamError [str "Error in API response:"; current_chunk st])
    | Some last_message =>
        match
          (err <- py_get last_message (str "error") (JDict []) ;;
           message <- py_get err (str "message") (JStr []) ;;
           match message with
           | JStr m =>
               if py_in (str "rate limit") (str_lower m)
               then Raise (OpenAIRateLimitError m)
               else
                 err' <- py_getitem last_message (str "error") ;;
                 message' <- py_getitem err' (str "message") ;;
                 match message' with
                 | JStr m' => Raise (OpenAIStreamError [m'])
                 | _ => Raise TypeError
                 end
           | _ => Raise AttributeError
           end : result unit)
        with
        | Raise e => Raised e
        | Ok _ => Returned
        end
    end.

(** The chunks before the last are taken in with the loop going on, and
    the last chunk decodes. *)
Fixpoint taken_in (st : dstate) (chunks : list (list Byte.byte)) : Prop :=
  match chunks with
  | [] => False
  | [last] => utf8_decode last <> None
  | c :: rest =>
      exit (feed st c) = Goes /\ taken_in (locals (feed st c)) rest
  end.
End Loop.

(** ** The generators [completion_api], [chat_api] and [complete] *)

(** What a generator does to the world besides yielding: it enters and
    leaves the [CapacitySemaphore] block, posts the request and closes the
    response after the loop. *)
Inductive effect : Type :=
| Acquire (units : Z)
| Post (endpoint : pystr) (headers : headers_t) (json_body : kwargs_t)
| Close
| Release (units : Z).

(** A generator driven to its end: its effects in order, the events it
    yielded, what it printed and how it ended. *)
Record run : Type := {
  effects : list effect;
  events : list json;
  output : list printed;
  result_ : outcome
}.

Definition initial (d : option json) : dstate :=
  {| current_chunk := []; n_chunks := 0; data := d; received_text := [] |}.

Section Api.
Context {E : Externals}.
Variable env : environ.

(** The body of [async with CapacitySemaphore(units)]: endpoint
    resolution, the request, the decode loop and the code after it.
    [chunks] is what [resp.content.iter_any()] delivers. *)
Definition streaming
  (frame : dstate -> pystr -> list printed * result (json * dstate))
  (units : Z) (kwargs : kwargs_t) (d : option json)
  (chunks : list (list Byte.byte)) : run :=
  match get_endpoint_and_headers env kwargs with
  | (Raise e, _) =>
      {| effects := [Acquire units; Release units]; events := [];
         output := []; result_ := Raised e |}
  | (Ok (endpoint, headers), kwargs) =>
      let r := stream_loop frame (initial d) chunks in
      match exit r with
      | Ends o =>
          {| effects := [Acquire units; Post endpoint headers kwargs; Release units];
             events := yielded r; output := printed_lines r; result_ := o |}
      | _ =>
          {| effects := [Acquire units; Post endpoint headers kwargs; Close;
                         Release units];
             events := yielded r; output := printed_lines r;
             result_ := after_stream (locals r) |}
      end
  end.

Definition raises (e : exn) : run :=
  {| effects := []; events := []; output := []; result_ := Raised e |}.

(** [kwargs.pop("timeout", 1.5)] *)
Definition pop_timeout (kwargs : kwargs_t) : kwargs_t :=
  {| model := model kwargs; prompt := prompt kwargs;
     messages := messages kwargs; max_tokens := max_tokens kwargs;
     timeout := None; echo := echo kwargs; logprobs := logprobs kwargs;
     logit_bias := logit_bias kwargs; api_config := api_config kwargs;
     other := other kwargs |}.

(** [kwargs.get("max_tokens", 0)] *)
Definition get_max_tokens (kwargs : kwargs_t) : Z :=
  match max_tokens kwargs with Some n => n | None => 0%Z end.

(** [completion_api] *)
Definition completion_api (kwargs : kwargs_t) (chunks : list (list Byte.byte))
  : run :=
  match prompt kwargs with
  | None => raises (KeyError (str "prompt"))
  | Some p =>
      let num_prompts := length p in
      let max_tokens := get_max_tokens kwargs in
      let kwargs := pop_timeout kwargs in
      streaming completion_frame (Z.of_nat num_prompts * max_tokens)
                kwargs None chunks
  end.

(** The event [chat_api] yields first when [echo] is set. *)
Definition echo_event (prompt0 : pystr) (prompt_tokens : list pystr) : json :=
  JDict [(str "choices",
          JList [JDict [(str "text", JStr prompt0);
                        (str "index", JInt 0);
                        (str "finish_reason", JNull);
                        (str "logprobs", zero_logprobs prompt_tokens)]])].

Definition after_yield (ev : list json) (r : run) : run :=
  {| effects := effects r; events := ev ++ events r; output := output r;
     result_ := result_ r |}.

Definition after_print (pr : list printed) (r : run) : run :=
  {| effects := effects r; events := events r; output := pr ++ output r;
     result_ := result_ r |}.

(** [chat_api] *)
Definition chat_api (kwargs : kwargs_t) (chunks : list (list Byte.byte)) : run :=
  match prompt kwargs with
  | None => raises (KeyError (str "prompt"))
  | Some p =>
      let num_prompts := length p in
      let max_tokens_ := get_max_tokens kwargs in
      match logit_bias kwargs with
      | Some _ => raises AssertionError
      | None =>
          match p with
          | [] => raises IndexError
          | prompt0 :: _ =>
              let prompt_tokens := tokenize prompt0 in
              let kwargs := pop_timeout kwargs in
              match echo kwargs with
              | None => raises (KeyError (str "echo"))
              | Some echo_ =>
                  let d := if echo_ then Some (echo_event prompt0 prompt_tokens)
                           else None in
                  after_yield (if echo_ then [echo_event prompt0 prompt_tokens] else [])
                    (if (max_tokens_ =? 0)%Z then
                       {| effects := []; events := []; output := [];
                          result_ := Returned |}
                     else if negb (length p =? 1) then raises AssertionError
                     else
                       let '(msgs, pr) := chat_messages prompt0 in
                       after_print pr
                         (match logprobs kwargs with
                          | None => raises (KeyError (str "logprobs"))
                          | Some _ =>
                              let kwargs :=
                                {| model := model kwargs; prompt := None;
                                   messages := Some msgs;
                                   max_tokens := max_tokens kwargs;
                                   timeout := timeout kwargs; echo := None;
                                   logprobs := None;
                                   logit_bias := logit_bias kwargs;
                                   api_config := api_config kwargs;
                                   other := other kwargs |} in
                              streaming chat_frame
                                        (Z.of_nat num_prompts * max_tokens_)
                                        kwargs d chunks
                          end))
              end
          end
      end
  end.

(** [complete] *)
Definition complete (kwargs : kwargs_t) (chunks : list (list Byte.byte)) : run :=
  if startswith (model kwargs) (str "gpt-3.5-turbo")
     || py_in (str "gpt-4") (model kwargs)
  then chat_api kwargs chunks
  else completion_api kwargs chunks.
End Api.

(** ** Capacity admission: [Capacity] and [CapacitySemaphore] *)

(** The class attributes [Capacity.total] and [Capacity.reserved]. *)
Record Capacity : Type := { total : Z; reserved : Z }.

(** The module's initial values. *)
Definition Capacity_initial : Capacity := {| total := 32000; reserved := 0 |}.

(** What one turn of the loop of [__aenter__] does: it goes to sleep for
    the given number of milliseconds, or it has entered. *)
Inductive poll : Type :=
| Sleeps (milliseconds : nat)
| Enters.

(** One turn of [while True] in [CapacitySemaphore.__aenter__]; [capacity]
    is [self.capacity]. No [await] separates the test from the update. *)
Definition aenter_poll (C : Capacity) (capacity : Z) : Capacity * poll :=
  if (reserved C >=? total C)%Z then (C, Sleeps 500)
  else ({| total := total C; reserved := reserved C + capacity |}, Enters).

(** [CapacitySemaphore.__aexit__] *)
Definition aexit (C : Capacity) (capacity : Z) : Capacity :=
  {| total := total C; reserved := reserved C - capacity |}.

(** [__aenter__] run against the other tasks: [seen] lists what
    [Capacity] holds each time the loop makes its test (a turn that sleeps
    leaves [Capacity] as it is, so what the next turn finds is up to the
    tasks that ran meanwhile).  The result is the number of sleeps and
    [Capacity] on return, or [None] when the loop is still waiting after the
    last entry of [seen]. *)
Fixpoint aenter (seen : list Capacity) (capacity : Z) : option (nat * Capacity) :=
  match seen with
  | [] => None
  | C :: seen' =>
      match aenter_poll C capacity with
      | (C', Enters) => Some (0, C')
      | (_, Sleeps _) =>
          match aenter seen' capacity with
          | Some (n, C'') => Some (S n, C'')
          | None => None
          end
      end
  end.

(** *** Streams sharing [Capacity]

    Each stream is a task that runs [async with CapacitySemaphore(units)]
    around its body.  The tasks are scheduled cooperatively, so a step of the
    system is what one task does between two of its suspension points. *)

Inductive phase : Type :=
| Waiting       (* in [__aenter__], not yet admitted *)
| Holding       (* inside the [async with] block *)
| Finished.     (* past the block, or cancelled before admission *)

(** How a task leaves the body of the block. *)
Inductive leave : Type :=
| BySuccess
| ByError (e : exn)
| ByCancellation.

Inductive capacity_event : Type :=
| Acquired (stream : nat) (units : Z)
| Released (stream : nat) (units : Z) (how : leave).

Record system : Type := {
  capacity : Capacity;
  phases : list phase;             (* one per stream *)
  history : list capacity_event    (* oldest first *)
}.

Definition set_phase (i : nat) (p : phase) (ps : list phase) : list phase :=
  firstn i ps ++ p :: skipn (S i) ps.

(** [units] gives [num_prompts * max_tokens] of each stream. *)
Inductive step (units : list Z) : system -> system -> Prop :=
| step_sleep : forall s i u C' ms,
    nth_error (phases s) i = Some Waiting ->
    nth_error units i = Some u ->
    aenter_poll (capacity s) u = (C', Sleeps ms) ->
    step units s {| capacity := C'; phases := phases s; history := history s |}
| step_enter : forall s i u C',
    nth_error (phases s) i = Some Waiting ->
    nth_error units i = Some u ->
    aenter_poll (capacity s) u = (C', Enters) ->
    step units s {| capacity := C';
                    phases := set_phase i Holding (phases s);
                    history := history s ++ [Acquired i u] |}
| step_cancel_waiting : forall s i,
    nth_error (phases s) i = Some Waiting ->
    step units s {| capacity := capacity s;
                    phases := set_phase i Finished (phases s);
                    history := history s |}
| step_leave : forall s i u how,
    nth_error (phases s) i = Some Holding ->
    nth_error units i = Some u ->
    step units s {| capacity := aexit (capacity s) u;
                    phases := set_phase i Finished (phases s);
                    history := history s ++ [Released i u how] |}.

Inductive reachable (units : list Z) : system -> system -> Prop :=
| reach_refl : forall s, reachable units s s
| reach_step : forall s s' s'',
    reachable units s s' -> step units s' s'' -> reachable units s s''.

Definition start (C : Capacity) (units : list Z) : system :=
  {| capacity := C; phases := map (fun _ => Waiting) units; history := [] |}.

(** ** An instance of the external capabilities

    Used to run the model on concrete inputs.  The parser covers the
    fragment of JSON without fractions, exponents and [\u] escapes, on which
    it returns what [json.loads] returns; case mapping is that of ASCII
    letters; the tokenizer makes one token of every character. *)

Fixpoint skip_ws (s : pystr) : pystr :=
  match s with
  | c :: s' =>
      if (c =? 32)%N || (c =? 9)%N || (c =? 10)%N || (c =? 13)%N
      then skip_ws s' else s
  | [] => []
  end.

(** The characters of a string literal after its opening quote. *)
Fixpoint parse_string (s : pystr) : option (pystr * pystr) :=
  match s with
  | [] => None
  | c :: s' =>
      if (c =? 34)%N then Some ([], s')
      else if (c =? 92)%N then
        match s' with
        | e :: s'' =>
            let unescaped :=
              if (e =? 34)%N then Some 34%N
              else if (e =? 92)%N then Some 92%N
              else if (e =? 47)%N then Some 47%N
              else if (e =? 98)%N then Some 8%N
              else if (e =? 102)%N then Some 12%N
              else if (e =? 110)%N then Some 10%N
              else if (e =? 114)%N then Some 13%N
              else if (e =? 116)%N then Some 9%N
              else None in
            match unescaped, parse_string s'' with
            | Some u, Some (x, r) => Some (u :: x, r)
            | _, _ => None
            end
        | [] => None
        end
      else if (c <? 32)%N then None
      else match parse_string s' with
           | Some (x, r) => Some (c :: x, r)
           | None => None
           end
  end.

Definition is_digit (c : N) : bool := ((48 <=? c) && (c <=? 57))%N.

Fixpoint parse_digits (acc : Z) (s : pystr) : Z * pystr :=
  match s with
  | c :: s' =>
      if is_digit c then parse_digits (acc * 10 + Z.of_N (c - 48)) s'
      else (acc, s)
  | [] => (acc, [])
  end.

(** An integer without sign: [0] or a digit string that does not start
    with [0]; a fraction or an exponent is outside the fragment. *)
Definition parse_nat (s : pystr) : option (Z * pystr) :=
  match s with
  | c :: s' =>
      if negb (is_digit c) then None
      else
        let '(n, r) := if (c =? 48)%N then (0%Z, s') else parse_digits 0 s in
        match r with
        | d :: _ =>
            if is_digit d || (d =? 46)%N || (d =? 101)%N || (d =? 69)%N
            then None else Some (n, r)
        | [] => Some (n, r)
        end
  | [] => None
  end.

Fixpoint parse_value (fuel : nat) (s : pystr) : option (json * pystr) :=
  match fuel with
  | O => None
  | S fuel' =>
      let s := skip_ws s in
      match s with
      | [] => None
      | c :: r =>
          if (c =? 34)%N then
            match parse_string r with
            | Some (x, r') => Some (JStr x, r')
            | None => None
            end
          else if (c =? 91)%N then
            match skip_ws r with
            | 93%N :: r' => Some (JList [], r')
            | _ =>
                match parse_elements fuel' r with
                | Some (vs, r') => Some (JList vs, r')
                | None => None
                end
            end
          else if (c =? 123)%N then
            match skip_ws r with
            | 125%N :: r' => Some (JDict [], r')
            | _ =>
                match parse_members fuel' [] r with
                | Some (kv, r') => Some (JDict kv, r')
                | None => None
                end
            end
          else if (c =? 45)%N then
            match parse_nat r with
            | Some (n, r') => Some (JInt (- n), r')
            | None => None
            end
          else if startswith s (str "true") then Some (JBool true, skipn 4 s)
          else if startswith s (str "false") then Some (JBool false, skipn 5 s)
          else if startswith s (str "null") then Some (JNull, skipn 4 s)
          else
            match parse_nat s with
            | Some (n, r') => Some (JInt n, r')
            | None => None
            end
      end
  end
with parse_elements (fuel : nat) (s : pystr) : option (list json * pystr) :=
  match fuel with
  | O => None
  | S fuel' =>
      match parse_value fuel' s with
      | Some (v, r) =>
          match skip_ws r with
          | 44%N :: r' =>
              match parse_elements fuel' r' with
              | Some (vs, r'') => Some (v :: vs, r'')
              | None => None
              end
          | 93%N :: r' => Some ([v], r')
          | _ => None
          end
      | None => None
      end
  end
with parse_members (fuel : nat) (acc : list (pystr * json)) (s : pystr)
  : option (list (pystr * json) * pystr) :=
  match fuel with
  | O => None
  | S fuel' =>
      match skip_ws s with
      | 34%N :: r =>
          match parse_string r with
          | Some (k, r1) =>
              match skip_ws r1 with
              | 58%N :: r2 =>
                  match parse_value fuel' r2 with
                  | Some (v, r3) =>
                      let acc := dict_set acc k v in
                      match skip_ws r3 with
                      | 44%N :: r4 => parse_members fuel' acc r4
                      | 125%N :: r4 => Some (acc, r4)
                      | _ => None
                      end
                  | None => None
                  end
              | _ => None
              end
          | None => None
          end
      | _ => None
      end
  end.

Definition json_loads_fragment (s : pystr) : option json :=
  match parse_value (2 * length s + 2) s with
  | Some (v, r) => match skip_ws r with [] => Some v | _ => None end
  | None => None
  end.

Definition ascii_lower (s : pystr) : pystr :=
  map (fun c => if ((65 <=? c) && (c <=? 90))%N then (c + 32)%N else c) s.

Definition ascii_upper (s : pystr) : pystr :=
  map (fun c => if ((97 <=? c) && (c <=? 122))%N then (c - 32)%N else c) s.

Definition char_tokens (text : pystr) : list (list Byte.byte) :=
  map (fun c => match Byte.of_N c with Some b => [b] | None => [] end) text.

#[export] Instance sample_externals : Externals := {
  json_loads := json_loads_fragment;
  str_lower := ascii_lower;
  str_upper := ascii_upper;
  tokenizer_bytes := char_tokens;
  openai_secret := str "sk-sample"
}.

(** Stream literals for the examples: in [wire "..."] an apostrophe stands
    for a double quote and a tilde for a line feed. *)
Definition wire_text (s : string) : pystr :=
  map (fun c => if (c =? 39)%N then 34%N else if (c =? 126)%N then 10%N else c)
      (str s).

Definition wire (s : string) : list Byte.byte :=
  flat_map (fun c => match Byte.of_N c with Some b => [b] | None => [] end)
           (wire_text s).

(** ** Definitions used in the statements *)

(** The endpoint override of a request: [api_config["endpoint"]]. *)
Definition endpoint_override (kwargs : kwargs_t) : option pystr :=
  match api_config kwargs with
  | Some c => cfg_endpoint c
  | None => None
  end.

(** The ambient configuration selects the alternate cloud. *)
Definition azure_env (env : environ) : bool :=
  match env_get env (str "OPENAI_API_TYPE") with
  | Some t => str_eqb t (str "azure")
  | None => false
  end.

Definition chat_url : pystr := str "https://api.openai.com/v1/chat/completions".
Definition completions_url : pystr := str "https://api.openai.com/v1/completions".

Definition json_header : pystr * pystr :=
  (str "Content-Type", str "application/json").

Definition bearer_headers {E : Externals} : headers_t :=
  [(str "Authorization", str "Bearer " ++ openai_secret); json_header].

(** The model test of [complete] and [get_endpoint_and_headers]. *)
Definition chat_model (m : pystr) : bool :=
  startswith m (str "gpt-3.5-turbo") || py_in (str "gpt-4") m.

(** The model test in the words of the specification: the model id starts
    with one of the chat-model prefixes. *)
Definition spec_starts_with_chat_prefix (m : pystr) : bool :=
  startswith m (str "gpt-3.5-turbo") || startswith m (str "gpt-4").

Definition sample_chat_kwargs (m : string) : kwargs_t :=
  {| model := str m; prompt := Some [str "Hello"]; messages := None;
     max_tokens := Some 16%Z; timeout := None; echo := Some false;
     logprobs := Some JNull; logit_bias := None; api_config := None;
     other := [] |}.

(** A request with a plain custom endpoint. *)
Definition sample_custom_kwargs (ep : string) : kwargs_t :=
  {| model := str "my-model"; prompt := Some [str "Hello"]; messages := None;
     max_tokens := Some 16%Z; timeout := None; echo := None;
     logprobs := None; logit_bias := None;
     api_config := Some {| cfg_endpoint := Some (str ep);
                           cfg_azure_api_key := None |};
     other := [] |}.

Definition sample_completion_kwargs (n : Z) : kwargs_t :=
  {| model := str "text-davinci-003"; prompt := Some [str "Hello"; str "World"];
     messages := None; max_tokens := Some n; timeout := None; echo := None;
     logprobs := None; logit_bias := None; api_config := None; other := [] |}.

Definition sample_state (buffer : string) : dstate :=
  {| current_chunk := wire_text buffer; n_chunks := 3; data := None;
     received_text := str "so far" |}.

Definition admits (C : Capacity) : Prop := (reserved C < total C)%Z.

(** The units held by the streams that are inside their block. *)
Fixpoint held (units : list Z) (ps : list phase) : Z :=
  match units, ps with
  | u :: units', p :: ps' =>
      (match p with Holding => u | _ => 0 end + held units' ps')%Z
  | _, _ => 0%Z
  end.

Definition about (i : nat) (e : capacity_event) : bool :=
  match e with
  | Acquired j _ => j =? i
  | Released j _ _ => j =? i
  end.

(** The acquisitions and releases of stream [i], oldest first. *)
Definition events_of (i : nat) (h : list capacity_event) : list capacity_event :=
  filter (about i) h.

Definition weight (p : phase) (u : Z) : Z :=
  match p with Holding => u | _ => 0%Z end.

(** What the history holds for a stream in a given phase. *)
Definition stream_history (i : nat) (u : Z) (p : phase)
  (h : list capacity_event) : Prop :=
  match p with
  | Waiting => events_of i h = []
  | Holding => events_of i h = [Acquired i u]
  | Finished =>
      events_of i h = [] \/
      exists how, events_of i h = [Acquired i u; Released i u how]
  end.

Definition invariant (units : list Z) (r0 : Z) (s : system) : Prop :=
  length (phases s) = length units /\
  reserved (capacity s) = (r0 + held units (phases s))%Z /\
  forall i u p,
    nth_error units i = Some u ->
    nth_error (phases s) i = Some p ->
    stream_history i u p (history s).

(** The acquisitions and releases among the effects of a generator. *)
Definition capacity_effects (l : list effect) : list effect :=
  filter (fun e => match e with Acquire _ | Release _ => true | _ => false end) l.

(** Two streams: the first is admitted and fails, the second is cancelled
    while it waits. *)
Definition sample_system : system :=
  {| capacity := {| total := 32000; reserved := 0 |};
     phases := [Finished; Finished];
     history := [Acquired 0 512; Released 0 512 (ByError UnicodeDecodeError)] |}.

Definition sample_system_1 : system :=
  {| capacity := {| total := 32000; reserved := 512 |};
     phases := [Holding; Waiting];
     history := [Acquired 0 512] |}.

Definition sample_system_2 : system :=
  {| capacity := {| total := 32000; reserved := 512 |};
     phases := [Holding; Finished];
     history := [Acquired 0 512] |}.

(** The marker [<lmql:t/>]. *)
Definition marker (t : pystr) : pystr := str "<lmql:" ++ t ++ str "/>".

(** A prompt written as the text before the first marker followed by
    marker-and-text pairs. *)
Fixpoint render (x : pystr) (rest : list (pystr * pystr)) : pystr :=
  match rest with
  | [] => x
  | (t, y) :: rest' => x ++ marker t ++ render y rest'
  end.

(** The segments of such a prompt: the text in front of a marker counts
    when it is not empty, the text after the last marker always. *)
Fixpoint segments_of (tg : option pystr) (x : pystr) (rest : list (pystr * pystr))
  : list segment :=
  match rest with
  | [] => [{| tag := tg; text := x |}]
  | (t, y) :: rest' =>
      (if length x =? 0 then [] else [{| tag := tg; text := x |}])
        ++ segments_of (Some t) y rest'
  end.

(** A text in which no marker starts, and a tag that a marker can carry. *)
Definition plain (x : pystr) : Prop := py_in (str "<lmql:") x = false.

Definition taggable (t : pystr) : Prop :=
  py_in (str "/>") t = false /\ existsb (N.eqb 10) t = false.

Definition well_marked (rest : list (pystr * pystr)) : Prop :=
  Forall (fun ty => taggable (fst ty) /\ plain (snd ty)) rest.

(** The message built from a segment, and what is printed for it. *)
Definition message_of (sg : segment) : chat_message :=
  {| role := fst (role_of_tag (tag sg)); content := text sg |}.

Definition warning_of (sg : segment) : list printed := snd (role_of_tag (tag sg)).

(** The segments in the words of the specification: every marker starts a
    segment, the text before the first marker is a segment without tag, and
    the segments that count are the non-empty ones. *)
Definition spec_segments_of (x : pystr) (rest : list (pystr * pystr))
  : list segment :=
  filter (fun sg => negb (length (text sg) =? 0))
         ({| tag := None; text := x |}
            :: map (fun ty => {| tag := Some (fst ty); text := snd ty |}) rest).

Definition unlabel (complete_chunk : pystr) : pystr :=
  if startswith complete_chunk DATA
  then skipn (length DATA) complete_chunk
  else complete_chunk.

Definition spaceless (D : pystr) : Prop := forall d, In d D -> isspace d = false.

(** The buffer with more text appended, as [current_chunk += chunk]. *)
Definition grow (st : dstate) (t : pystr) : dstate :=
  set_current_chunk st (current_chunk st ++ t).

(** A frame body leaves the buffer alone and does not look at it. *)
Definition buffer_blind
  (frame : dstate -> pystr -> list printed * result (json * dstate)) : Prop :=
  (forall st f pr ev st',
     frame st f = (pr, Ok (ev, st')) -> current_chunk st' = current_chunk st) /\
  (forall st b f,
     frame (set_current_chunk st b) f
     = (fst (frame st f),
        match snd (frame st f) with
        | Ok (ev, st') => Ok (ev, set_current_chunk st' b)
        | Raise e => Raise e
        end)).





Definition sample_echo_kwargs : kwargs_t :=
  {| model := str "gpt-4"; prompt := Some [str "Hi"]; messages := None;
     max_tokens := Some 0%Z; timeout := None; echo := Some true;
     logprobs := Some JNull; logit_bias := None; api_config := None;
     other := [] |}.

Definition api_key_headers (key : pystr) : headers_t :=
  [json_header; (str "api-key", key)].

(** The per-model name of the environment variables: the model id in
    upper case with its dots replaced. *)
Definition azure_variable {E : Externals} (model : pystr) (suffix : string) : pystr :=
  str "AZURE_OPENAI_" ++ replace_dot (str_upper model) ++ str suffix.

Definition sample_azure_kwargs : kwargs_t :=
  {| model := str "gpt-3.5-turbo"; prompt := None; messages := None;
     max_tokens := None; timeout := None; echo := None; logprobs := None;
     logit_bias := None;
     api_config := Some {| cfg_endpoint := Some (str "azure://host/deploy");
                           cfg_azure_api_key := Some (str "k1") |};
     other := [] |}.

Definition sample_azure_env : environ :=
  [(str "OPENAI_API_TYPE", str "azure");
   (str "AZURE_OPENAI_GPT-3_5-TURBO_ENDPOINT", str "https://svc/chat");
   (str "AZURE_OPENAI_GPT-3_5-TURBO_KEY", str "k2")].

Definition prefix_of {A : Type} (a b : list A) : Prop := exists more, b = a ++ more.

(** The choice built for a piece of text and its tokens. *)
Definition normalised_choice (text : pystr) (index finish_reason : json)
  (tokens : list pystr) : json :=
  JDict [(str "text", JStr text); (str "index", index);
         (str "finish_reason", finish_reason);
         (str "logprobs", zero_logprobs tokens)].

(** The lengths of the four lists of a [logprobs] dictionary. *)
Definition logprobs_lengths (lp : json) : list (option nat) :=
  match lp with
  | JDict kv =>
      map (fun k => match dict_get kv (str k) with
                    | Some (JList l) => Some (length l)
                    | _ => None
                    end)
          ["text_offset"; "token_logprobs"; "tokens"; "top_logprobs"]%string
  | _ => []
  end.

(** A byte that [repr] prints as itself and that is neither a quote nor a
    backslash. *)
Definition plain_byte (b : Byte.byte) : bool :=
  let c := Byte.to_N b in
  ((32 <=? c) && (c <? 127) && negb (c =? 39) && negb (c =? 92))%N.

(** * Properties *)

(** ** Endpoint resolution and routing *)

Lemma get_azure_config_none (E : Externals) env m cfg :
  azure_env env = false ->
  match cfg_endpoint cfg with
  | Some ep => startswith ep (str "azure:") = false
  | None => True
  end ->
  get_azure_config env m cfg = Ok None.
Proof.
  unfold azure_env, get_azure_config. intros Henv Hep.
  destruct (cfg_endpoint cfg) as [ep|].
  - rewrite Hep. destruct (env_get env (str "OPENAI_API_TYPE")); [rewrite Henv|]; reflexivity.
  - destruct (env_get env (str "OPENAI_API_TYPE")); [rewrite Henv|]; reflexivity.
Qed.

Lemma public_endpoint (E : Externals) env kwargs :
  endpoint_override kwargs = None ->
  azure_env env = false ->
  fst (get_endpoint_and_headers env kwargs)
  = Ok (if chat_model (model kwargs) then chat_url else completions_url,
        bearer_headers).
Proof.
  intros Hov Henv. unfold get_endpoint_and_headers, endpoint_override in *.
  destruct (api_config kwargs) as [c|]; cbn [cfg_endpoint] in *.
  - rewrite get_azure_config_none by (rewrite ?Hov; auto).
    rewrite Hov. reflexivity.
  - rewrite get_azure_config_none by (cbn; auto). reflexivity.
Qed.

Lemma streaming_post (E : Externals) env frame units kwargs d chunks ep hd body :
  In (Post ep hd body) (effects (streaming env frame units kwargs d chunks)) ->
  get_endpoint_and_headers env kwargs = (Ok (ep, hd), body).
Proof.
  unfold streaming.
  destruct (get_endpoint_and_headers env kwargs) as [[[ep' hd']|e] kw'].
  - destruct (exit (stream_loop frame (initial d) chunks)); cbn;
      intros H; repeat (destruct H as [H|H]; try discriminate; try contradiction);
      injection H as -> -> ->; reflexivity.
  - cbn. intros H.
    repeat (destruct H as [H|H]; try discriminate; try contradiction).
Qed.

(** The effects of [chat_api] are those of its streaming part, when it
    gets there. *)
Lemma chat_api_effects (E : Externals) env kwargs chunks :
  effects (chat_api env kwargs chunks) = [] \/
  exists units kwargs' d,
    effects (chat_api env kwargs chunks)
    = effects (streaming env chat_frame units kwargs' d chunks) /\
    model kwargs' = model kwargs /\ api_config kwargs' = api_config kwargs.
Proof.
  unfold chat_api.
  destruct (prompt kwargs) as [p|]; [|left; reflexivity].
  destruct (logit_bias kwargs); [left; reflexivity|].
  destruct p as [|prompt0 rest]; [left; reflexivity|].
  cbn [pop_timeout echo].
  destruct (echo kwargs) as [echo_|]; [|left; reflexivity].
  cbn [after_yield effects].
  destruct (get_max_tokens kwargs =? 0)%Z; [left; reflexivity|].
  destruct (negb (length (prompt0 :: rest) =? 1)); [left; reflexivity|].
  destruct (chat_messages prompt0) as [msgs pr].
  cbn [after_print effects].
  destruct (logprobs (pop_timeout kwargs)); [|left; reflexivity].
  right. eexists _, _, _. split; [reflexivity|]. split; reflexivity.
Qed.

Lemma completion_api_effects (E : Externals) env kwargs chunks :
  effects (completion_api env kwargs chunks) = [] \/
  exists p,
    prompt kwargs = Some p /\
    completion_api env kwargs chunks
    = streaming env completion_frame
        (Z.of_nat (length p) * get_max_tokens kwargs) (pop_timeout kwargs)
        None chunks.
Proof.
  unfold completion_api.
  destruct (prompt kwargs) as [p|]; [|left; reflexivity].
  right. exists p. split; reflexivity.
Qed.

(** C9, as amended: with no endpoint override and no alternate-cloud
    configuration, [complete] runs the chat pipeline, and every request it
    posts goes to the chat-completions endpoint, exactly when the model id
    starts with [gpt-3.5-turbo] or contains [gpt-4] anywhere; otherwise it
    runs the completions pipeline and posts to the completions endpoint.
    Either way the headers are the bearer-token authorization and the JSON
    content type. *)
Theorem C9_public_routing (E : Externals) env kwargs chunks :
  endpoint_override kwargs = None ->
  azure_env env = false ->
  let chat :=
    startswith (model kwargs) (str "gpt-3.5-turbo")
    || py_in (str "gpt-4") (model kwargs) in
  complete env kwargs chunks
  = (if chat then chat_api env kwargs chunks
     else completion_api env kwargs chunks) /\
  fst (get_endpoint_and_headers env kwargs)
  = Ok (if chat then chat_url else completions_url, bearer_headers) /\
  forall ep hd body,
    In (Post ep hd body) (effects (complete env kwargs chunks)) ->
    ep = (if chat then chat_url else completions_url) /\ hd = bearer_headers.
Proof.
  intros Hov Henv chat. split; [reflexivity|].
  split; [apply public_endpoint; assumption|].
  intros ep hd body Hin.
  assert (Hpub : forall kw', model kw' = model kwargs ->
                   api_config kw' = api_config kwargs ->
                   get_endpoint_and_headers env kw' = (Ok (ep, hd), body) ->
                   ep = (if chat then chat_url else completions_url)
                   /\ hd = bearer_headers).
  { intros kw' Hm Hc Hget.
    pose proof (@public_endpoint E env kw') as Hp.
    unfold endpoint_override in Hp, Hov. rewrite Hc in Hp.
    specialize (Hp Hov Henv). rewrite Hget in Hp. cbn [fst] in Hp.
    injection Hp as -> ->. rewrite Hm. split; reflexivity. }
  unfold complete in Hin. fold chat in Hin. destruct chat.
  - destruct (chat_api_effects E env kwargs chunks) as [H0|(u & kw' & d & He & Hm & Hc)].
    + rewrite H0 in Hin. contradiction.
    + rewrite He in Hin. apply streaming_post in Hin. eapply Hpub; eauto.
  - destruct (completion_api_effects E env kwargs chunks) as [H0|(p & Hp & He)].
    + rewrite H0 in Hin. contradiction.
    + rewrite He in Hin. apply streaming_post in Hin.
      eapply (Hpub (pop_timeout kwargs)); eauto.
Qed.

Lemma C9_public_routing_witness :
  complete [] (sample_chat_kwargs "gpt-4-32k") []
  = chat_api [] (sample_chat_kwargs "gpt-4-32k") [] /\
  fst (get_endpoint_and_headers [] (sample_chat_kwargs "gpt-4-32k"))
  = Ok (chat_url, bearer_headers).
Proof.
  destruct (@C9_public_routing sample_externals []
              (sample_chat_kwargs "gpt-4-32k") [] eq_refl eq_refl)
    as (H1 & H2 & _).
  split; [exact H1 | exact H2].
Defined.

(** C9, as stated, fails: the model id [my-gpt-4] starts with no chat-model
    prefix, and yet the request runs the chat pipeline (it is not the run of
    the completions pipeline) and is posted to the chat-completions
    endpoint. *)
Lemma C9_counterexample :
  spec_starts_with_chat_prefix (str "my-gpt-4") = false /\
  complete [] (sample_chat_kwargs "my-gpt-4") []
  = chat_api [] (sample_chat_kwargs "my-gpt-4") [] /\
  complete [] (sample_chat_kwargs "my-gpt-4") []
  <> completion_api [] (sample_chat_kwargs "my-gpt-4") [] /\
  fst (get_endpoint_and_headers [] (sample_chat_kwargs "my-gpt-4"))
  = Ok (chat_url, bearer_headers).
Proof.
  split; [reflexivity|]. split; [reflexivity|]. split; [|reflexivity].
  intros H. apply (f_equal effects) in H. vm_compute in H. discriminate H.
Qed.

(** C8: the code at an endpoint that already has a scheme.  The scheme is
    tested at the end of the endpoint, not at its start, so [http://] is put
    in front of [http://localhost:8080] all the same; an endpoint that ends
    in [http] is the one left alone. *)
Theorem C8_scheme_tested_at_the_end :
  fst (get_endpoint_and_headers [] (sample_custom_kwargs "http://localhost:8080"))
  = Ok (str "http://http://localhost:8080/completions", [json_header]) /\
  fst (get_endpoint_and_headers [] (sample_custom_kwargs "localhost:8080/http"))
  = Ok (str "localhost:8080/http/completions", [json_header]).
Proof. split; reflexivity. Qed.

(** ** Zero [max_tokens] on the two paths *)

Lemma chat_api_zero_no_effects (E : Externals) env kwargs chunks :
  get_max_tokens kwargs = 0%Z ->
  effects (chat_api env kwargs chunks) = [].
Proof.
  intros H0. unfold chat_api.
  destruct (prompt kwargs) as [p|]; [|reflexivity].
  destruct (logit_bias kwargs); [reflexivity|].
  destruct p as [|prompt0 rest]; [reflexivity|].
  destruct (echo (pop_timeout kwargs)) as [echo_|]; [|reflexivity].
  rewrite H0. reflexivity.
Qed.

(** C10: when [max_tokens] is 0 (or absent) and the endpoint resolves,
    [completion_api] reserves [num_prompts * 0 = 0] units, posts the request
    and decodes the response stream: its events are those of the decode loop
    over the chunks received.  [chat_api] with the same [max_tokens] has no
    effect at all: it acquires nothing and posts nothing. *)
Theorem C10_completion_zero_max_tokens (E : Externals) env kwargs p chunks
  ep hd body :
  prompt kwargs = Some p ->
  get_max_tokens kwargs = 0%Z ->
  get_endpoint_and_headers env (pop_timeout kwargs) = (Ok (ep, hd), body) ->
  (exists closing,
     effects (completion_api env kwargs chunks)
     = Acquire 0 :: Post ep hd body :: closing ++ [Release 0] /\
     (closing = [] \/ closing = [Close])) /\
  events (completion_api env kwargs chunks)
  = yielded (stream_loop completion_frame (initial None) chunks) /\
  effects (chat_api env kwargs chunks) = [].
Proof.
  intros Hp H0 Hep. split; [|split].
  - unfold completion_api. rewrite Hp, H0, Z.mul_0_r.
    unfold streaming. rewrite Hep.
    destruct (exit (stream_loop completion_frame (initial None) chunks)).
    + exists [Close]. split; [reflexivity|right; reflexivity].
    + exists [Close]. split; [reflexivity|right; reflexivity].
    + exists []. split; [reflexivity|left; reflexivity].
  - unfold completion_api. rewrite Hp. unfold streaming. rewrite Hep.
    destruct (exit (stream_loop completion_frame (initial None) chunks));
      reflexivity.
  - apply chat_api_zero_no_effects. assumption.
Qed.

Lemma C10_completion_zero_max_tokens_witness :
  effects (completion_api [] (sample_completion_kwargs 0)
             [wire "data: {'id': 1}~~data: [DONE]~~"])
  = [Acquire 0;
     Post completions_url bearer_headers (sample_completion_kwargs 0);
     Close; Release 0] /\
  events (completion_api [] (sample_completion_kwargs 0)
            [wire "data: {'id': 1}~~data: [DONE]~~"])
  = [JDict [(str "id", JInt 1)]].
Proof.
  destruct (@C10_completion_zero_max_tokens sample_externals []
              (sample_completion_kwargs 0) [str "Hello"; str "World"]
              [wire "data: {'id': 1}~~data: [DONE]~~"]
              completions_url bearer_headers (sample_completion_kwargs 0)
              eq_refl eq_refl eq_refl) as ((closing & He & _) & Hev & _).
  split.
  - reflexivity.
  - rewrite Hev. reflexivity.
Defined.

(** ** Frames: malformed JSON and embedded errors *)

(** C3: the code on a frame that is not JSON.  [completion_api] and
    [chat_api] report the frame and then go on with the variable [data] as it
    was.  When the malformed frame is the first one, [data] is unbound and the
    stream ends with [UnboundLocalError], the frames after it undecoded; when
    a frame was decoded before, that frame's event is yielded a second time
    in place of the malformed one. *)
Theorem C3_malformed_frame_is_not_skipped :
  (let r := completion_api [] (sample_completion_kwargs 16)
              [wire "data: {bad~~data: {'id': 2}~~data: [DONE]~~"] in
   events r = [] /\
   output r = [PrintFailedJSON (str "{bad")] /\
   result_ r = Raised UnboundLocalError) /\
  (let r := completion_api [] (sample_completion_kwargs 16)
              [wire "data: {'id': 1}~~data: {bad~~data: {'id': 2}~~data: [DONE]~~"] in
   events r = [JDict [(str "id", JInt 1)]; JDict [(str "id", JInt 1)];
               JDict [(str "id", JInt 2)]] /\
   output r = [PrintFailedJSON (str "{bad")] /\
   result_ r = Returned) /\
  (let r := chat_api [] (sample_chat_kwargs "gpt-4")
              [wire "data: {bad~~data: {'choices': []}~~data: [DONE]~~"] in
   events r = [] /\
   output r = [PrintFailedJSON (str "{bad")] /\
   result_ r = Raised UnboundLocalError).
Proof. vm_compute. repeat split. Qed.

(** ** Facts about the string primitives *)

Lemma str_eqb_eq (a b : pystr) : str_eqb a b = true <-> a = b.
Proof.
  revert b. induction a as [|c a IH]; intros [|d b]; cbn; split; intros H;
    try reflexivity; try discriminate.
  - apply andb_true_iff in H as [H1 H2]. apply N.eqb_eq in H1.
    apply IH in H2. congruence.
  - injection H as -> ->. rewrite N.eqb_refl. cbn. apply IH. reflexivity.
Qed.

Lemma str_eqb_refl (a : pystr) : str_eqb a a = true.
Proof. apply str_eqb_eq. reflexivity. Qed.

Lemma str_eqb_neq (a b : pystr) : a <> b -> str_eqb a b = false.
Proof.
  intros H. destruct (str_eqb a b) eqn:Heq; [|reflexivity].
  apply str_eqb_eq in Heq. contradiction.
Qed.

Lemma length_eqb_0 {A : Type} (l : list A) : l <> [] -> (length l =? 0) = false.
Proof. destruct l; [congruence | reflexivity]. Qed.

(** What a frame body does with an error payload. *)
Lemma check_error_raises (E : Externals) kv err m :
  dict_get kv (str "error") = Some (JDict err) ->
  dict_get err (str "message") = Some (JStr m) ->
  check_error (JDict kv)
  = Raise (if py_in (str "rate limit") (str_lower m)
           then OpenAIRateLimitError m else OpenAIStreamError [m]).
Proof.
  intros He Hm. unfold check_error, py_in_keys, dict_has, bind.
  rewrite He. cbn [py_getitem]. rewrite He. cbn [py_getitem]. rewrite Hm.
  reflexivity.
Qed.

Lemma stream_loop_ends (E : Externals) frame st chunk rest o :
  exit (feed frame st chunk) = Ends o ->
  stream_loop frame st (chunk :: rest) = feed frame st chunk.
Proof. intros H. cbn [stream_loop]. rewrite H. reflexivity. Qed.

(** C6: a frame whose JSON carries an error object with message text [m]
    makes either frame body raise [OpenAIRateLimitError] when the lower-cased
    [m] contains [rate limit], and [OpenAIStreamError] otherwise; nothing is
    yielded or printed for the frame.  The error is terminal: when it is the
    next complete frame of the buffer the inner loop ends the generator with
    it, and the chunks that follow are not read. *)
Theorem C6_error_classification (E : Externals) st complete_chunk kv err m :
  json_loads complete_chunk = Some (JDict kv) ->
  dict_get kv (str "error") = Some (JDict err) ->
  dict_get err (str "message") = Some (JStr m) ->
  let e := if py_in (str "rate limit") (str_lower m)
           then OpenAIRateLimitError m else OpenAIStreamError [m] in
  completion_frame st complete_chunk = ([], Raise e) /\
  chat_frame st complete_chunk = ([], Raise e) /\
  forall frame fuel st0 rest,
    (frame = completion_frame \/ frame = chat_frame) ->
    extract (current_chunk st0) = Ok (Some (complete_chunk, rest)) ->
    strip complete_chunk <> [] ->
    complete_chunk <> DONE ->
    drain frame (S fuel) st0
    = stop (set_current_chunk st0 rest) (Ends (Raised e)).
Proof.
  intros Hj He Hm e.
  assert (Hc : forall s, completion_frame s complete_chunk = ([], Raise e)).
  { intros s. unfold completion_frame, load_frame. rewrite Hj.
    rewrite (check_error_raises E kv err m He Hm). reflexivity. }
  assert (Hh : forall s, chat_frame s complete_chunk = ([], Raise e)).
  { intros s. unfold chat_frame, load_frame. rewrite Hj.
    rewrite (check_error_raises E kv err m He Hm). reflexivity. }
  split; [apply Hc|]. split; [apply Hh|].
  intros frame fuel st0 rest Hf Hx Hne Hnd.
  cbn [drain]. rewrite Hx.
  rewrite (length_eqb_0 _ Hne), (str_eqb_neq _ _ Hnd).
  destruct Hf as [-> | ->]; [rewrite Hc | rewrite Hh]; reflexivity.
Qed.

Lemma C6_error_classification_witness :
  drain completion_frame 1
    (sample_state "data: {'error': {'message': 'Rate limit exceeded'}}~~data: {'id': 1}~~")
  = stop (sample_state "{'id': 1}~~")
         (Ends (Raised (OpenAIRateLimitError (str "Rate limit exceeded")))) /\
  drain chat_frame 1
    (sample_state "data: {'error': {'message': 'Invalid request'}}~~data: {'id': 1}~~")
  = stop (sample_state "{'id': 1}~~")
         (Ends (Raised (OpenAIStreamError [str "Invalid request"]))).
Proof.
  split.
  - apply (proj2 (proj2 (@C6_error_classification sample_externals
             (sample_state "")
             (wire_text "{'error': {'message': 'Rate limit exceeded'}}")
             [(str "error", JDict [(str "message", JStr (str "Rate limit exceeded"))])]
             [(str "message", JStr (str "Rate limit exceeded"))]
             (str "Rate limit exceeded") eq_refl eq_refl eq_refl))
           completion_frame 0
           (sample_state "data: {'error': {'message': 'Rate limit exceeded'}}~~data: {'id': 1}~~")
           (wire_text "{'id': 1}~~")).
    + left; reflexivity.
    + reflexivity.
    + vm_compute. discriminate.
    + vm_compute. discriminate.
  - apply (proj2 (proj2 (@C6_error_classification sample_externals
             (sample_state "")
             (wire_text "{'error': {'message': 'Invalid request'}}")
             [(str "error", JDict [(str "message", JStr (str "Invalid request"))])]
             [(str "message", JStr (str "Invalid request"))]
             (str "Invalid request") eq_refl eq_refl eq_refl))
           chat_frame 0
           (sample_state "data: {'error': {'message': 'Invalid request'}}~~data: {'id': 1}~~")
           (wire_text "{'id': 1}~~")).
    + right; reflexivity.
    + reflexivity.
    + vm_compute. discriminate.
    + vm_compute. discriminate.
Defined.

(** ** Capacity admission *)

Lemma aenter_poll_blocked C u :
  (reserved C >= total C)%Z -> aenter_poll C u = (C, Sleeps 500).
Proof.
  intros H. unfold aenter_poll.
  destruct (Z.geb_spec (reserved C) (total C)); [reflexivity | lia].
Qed.

Lemma aenter_poll_admitted C u :
  (reserved C < total C)%Z ->
  aenter_poll C u = ({| total := total C; reserved := reserved C + u |}, Enters).
Proof.
  intros H. unfold aenter_poll.
  destruct (Z.geb_spec (reserved C) (total C)); [lia | reflexivity].
Qed.

Lemma aenter_some seen u n C' :
  aenter seen u = Some (n, C') <->
  exists C,
    nth_error seen n = Some C /\ admits C /\
    C' = {| total := total C; reserved := reserved C + u |} /\
    Forall (fun D => ~ admits D) (firstn n seen).
Proof.
  unfold admits. revert n C'. induction seen as [|D seen IH]; intros n C'.
  - cbn. split; [discriminate|]. intros (C & H & _). destruct n; discriminate.
  - cbn [aenter].
    destruct (Z.lt_ge_cases (reserved D) (total D)) as [Hlt|Hge].
    + rewrite aenter_poll_admitted by assumption. split.
      * intros H. injection H as <- <-. exists D. cbn. auto.
      * intros (C & Hn & Hadm & -> & Hall). destruct n as [|n].
        -- cbn in Hn. injection Hn as ->. reflexivity.
        -- cbn in Hall. inversion Hall; subst. lia.
    + rewrite aenter_poll_blocked by lia. split.
      * destruct (aenter seen u) as [[k C'']|] eqn:Hr; [|discriminate].
        intros H. injection H as <- <-.
        destruct (proj1 (IH k C'') eq_refl) as (C & Hn & Hadm & -> & Hall).
        exists C. cbn. repeat split; auto. constructor; [lia | assumption].
      * intros (C & Hn & Hadm & -> & Hall). destruct n as [|n].
        -- cbn in Hn. injection Hn as ->. lia.
        -- cbn in Hn, Hall. inversion Hall; subst.
           rewrite (proj2 (IH n {| total := total C; reserved := reserved C + u |}));
             [reflexivity|].
           exists C. auto.
Qed.

Lemma aenter_none seen u :
  aenter seen u = None <-> Forall (fun D => ~ admits D) seen.
Proof.
  unfold admits. induction seen as [|D seen IH].
  - cbn. split; auto.
  - cbn [aenter].
    destruct (Z.lt_ge_cases (reserved D) (total D)) as [Hlt|Hge].
    + rewrite aenter_poll_admitted by assumption. split; [discriminate|].
      intros H. inversion H; subst. lia.
    + rewrite aenter_poll_blocked by lia.
      destruct (aenter seen u) as [[k C'']|] eqn:Hr.
      * split; [discriminate|]. intros H. inversion H; subst.
        apply IH in H3. discriminate.
      * split; [|reflexivity]. intros _. constructor; [lia|]. apply IH. reflexivity.
Qed.

(** C4: a turn of the loop of [__aenter__] that finds
    [reserved >= total] sleeps for half a second and leaves [Capacity]
    untouched; a turn that finds [reserved < total] adds the requested units
    to [reserved] in the same step and enters.  Run against the other tasks,
    [__aenter__] returns at the first test that finds [reserved < total],
    after one sleep for each earlier test, with [reserved] raised by the
    units; it has no other way out, so it waits as long as no test admits
    it and never fails.  After admission [reserved] may exceed [total]. *)
Theorem C4_admission (C : Capacity) (capacity : Z) :
  ((reserved C >= total C)%Z -> aenter_poll C capacity = (C, Sleeps 500)) /\
  ((reserved C < total C)%Z ->
   aenter_poll C capacity
   = ({| total := total C; reserved := reserved C + capacity |}, Enters)) /\
  (forall seen n C',
     aenter seen capacity = Some (n, C') <->
     exists D,
       nth_error seen n = Some D /\ (reserved D < total D)%Z /\
       C' = {| total := total D; reserved := reserved D + capacity |} /\
       Forall (fun D' => ~ (reserved D' < total D')%Z) (firstn n seen)) /\
  (forall seen,
     aenter seen capacity = None <->
     Forall (fun D' => ~ (reserved D' < total D')%Z) seen) /\
  (exists D units C',
     aenter [D] units = Some (0, C') /\ (reserved C' > total C')%Z).
Proof.
  split; [apply aenter_poll_blocked|]. split; [apply aenter_poll_admitted|].
  split; [intros; apply aenter_some|]. split; [intros; apply aenter_none|].
  exists {| total := 32000; reserved := 31999 |}, 512%Z,
         {| total := 32000; reserved := 32511 |}.
  split; [reflexivity | cbn; lia].
Qed.

Lemma C4_admission_witness :
  aenter_poll {| total := 32000; reserved := 32000 |} 512
  = ({| total := 32000; reserved := 32000 |}, Sleeps 500) /\
  aenter_poll {| total := 32000; reserved := 31999 |} 512
  = ({| total := 32000; reserved := 32511 |}, Enters).
Proof.
  split.
  - apply (proj1 (C4_admission {| total := 32000; reserved := 32000 |} 512)).
    cbn. lia.
  - apply (proj1 (proj2 (C4_admission {| total := 32000; reserved := 31999 |} 512))).
    cbn. lia.
Defined.

(** *** The shared counter over the life of the streams *)

Lemma nth_error_set_phase ps i p j :
  i < length ps ->
  nth_error (set_phase i p ps) j
  = if j =? i then Some p else nth_error ps j.
Proof.
  unfold set_phase. revert i j. induction ps as [|q ps IH]; intros i j Hi.
  - cbn in Hi. lia.
  - cbn in Hi.
    destruct i as [|i]; destruct j as [|j]; cbn [firstn skipn app nth_error Nat.eqb];
      try reflexivity.
    apply IH. lia.
Qed.

Lemma length_set_phase ps i p :
  i < length ps -> length (set_phase i p ps) = length ps.
Proof.
  unfold set_phase. revert i. induction ps as [|q ps IH]; intros i Hi.
  - cbn in Hi. lia.
  - cbn in Hi. destruct i as [|i]; cbn [firstn skipn app length]; [reflexivity|].
    f_equal. apply IH. lia.
Qed.

Lemma set_phase_S i p r ps : set_phase (S i) p (r :: ps) = r :: set_phase i p ps.
Proof. reflexivity. Qed.

Lemma held_set_phase units ps i p q u :
  nth_error ps i = Some q ->
  nth_error units i = Some u ->
  held units (set_phase i p ps) = (held units ps - weight q u + weight p u)%Z.
Proof.
  revert units i. induction ps as [|r ps IH]; intros units i Hq Hu.
  - destruct i; discriminate.
  - destruct units as [|v units]; [destruct i; discriminate|].
    destruct i as [|i].
    + cbn in Hq, Hu. injection Hq as ->. injection Hu as ->.
      cbn. unfold weight. lia.
    + cbn in Hq, Hu. rewrite set_phase_S. cbn [held].
      rewrite (IH units i Hq Hu). lia.
Qed.

Lemma held_nonneg units ps :
  Forall (fun u => (0 <= u)%Z) units -> (0 <= held units ps)%Z.
Proof.
  intros H. revert ps. induction H as [|u units Hu _ IH]; intros ps.
  - destruct ps; cbn; lia.
  - destruct ps as [|p ps]; cbn; [lia|]. specialize (IH ps).
    destruct p; lia.
Qed.

Lemma held_all_finished units ps :
  Forall (fun p => p = Finished) ps -> held units ps = 0%Z.
Proof.
  intros H. revert units. induction H as [|p ps -> _ IH]; intros units.
  - destruct units; reflexivity.
  - destruct units as [|u units]; cbn; [reflexivity|]. rewrite IH. reflexivity.
Qed.

Lemma events_of_app i h1 h2 :
  events_of i (h1 ++ h2) = events_of i h1 ++ events_of i h2.
Proof. apply filter_app. Qed.

Lemma events_of_snoc_other i h e :
  about i e = false -> events_of i (h ++ [e]) = events_of i h.
Proof.
  intros H. rewrite events_of_app. cbn. rewrite H. apply app_nil_r.
Qed.

Lemma events_of_snoc_same i h e :
  about i e = true -> events_of i (h ++ [e]) = events_of i h ++ [e].
Proof.
  intros H. rewrite events_of_app. cbn. rewrite H. reflexivity.
Qed.

Lemma held_all_waiting units :
  held units (map (fun _ => Waiting) units) = 0%Z.
Proof. induction units as [|u units IH]; cbn; [reflexivity | rewrite IH; reflexivity]. Qed.

Lemma invariant_start C units : invariant units (reserved C) (start C units).
Proof.
  unfold invariant, start. cbn. split; [apply length_map|].
  split; [rewrite held_all_waiting; lia|].
  intros i u p Hu Hp.
  rewrite nth_error_map in Hp. destruct (nth_error units i); [|discriminate].
  injection Hp as <-. reflexivity.
Qed.

Lemma nth_error_lt {A : Type} (l : list A) i x :
  nth_error l i = Some x -> i < length l.
Proof. intros H. apply nth_error_Some. congruence. Qed.

Lemma stream_history_other i u p h e :
  about i e = false -> stream_history i u p h -> stream_history i u p (h ++ [e]).
Proof.
  intros H. unfold stream_history. rewrite (events_of_snoc_other i h e H). auto.
Qed.

Lemma invariant_step units r0 s s' :
  invariant units r0 s -> step units s s' -> invariant units r0 s'.
Proof.
  intros (Hlen & Hres & Hhist) Hstep.
  destruct Hstep as [s i u C' ms Hp Hu Hpoll | s i u C' Hp Hu Hpoll
                    | s i Hp | s i u how Hp Hu]; unfold invariant; cbn.
  - (* sleep *)
    unfold aenter_poll in Hpoll.
    destruct (reserved (capacity s) >=? total (capacity s))%Z; [|discriminate].
    injection Hpoll as <- _. auto.
  - (* enter *)
    unfold aenter_poll in Hpoll.
    destruct (reserved (capacity s) >=? total (capacity s))%Z; [discriminate|].
    injection Hpoll as <-. cbn.
    pose proof (nth_error_lt _ _ _ Hp) as Hi.
    split; [rewrite length_set_phase; assumption|].
    split.
    + rewrite (held_set_phase units _ i Holding Waiting u Hp Hu).
      unfold weight. lia.
    + intros j v p Hv Hq. rewrite nth_error_set_phase in Hq by assumption.
      destruct (Nat.eqb_spec j i) as [->|Hne].
      * injection Hq as <-. rewrite Hu in Hv. injection Hv as <-.
        specialize (Hhist i u Waiting Hu Hp). cbn in Hhist |- *.
        rewrite events_of_snoc_same by (cbn; apply Nat.eqb_refl).
        rewrite Hhist. reflexivity.
      * apply stream_history_other; [|exact (Hhist j v p Hv Hq)].
        cbn. apply Nat.eqb_neq. congruence.
  - (* cancelled while waiting *)
    pose proof (nth_error_lt _ _ _ Hp) as Hi.
    split; [rewrite length_set_phase; assumption|].
    assert (Hu : exists u, nth_error units i = Some u).
    { destruct (nth_error units i) as [u|] eqn:Hu; [eauto|].
      apply nth_error_None in Hu. lia. }
    destruct Hu as [u Hu].
    split.
    + rewrite (held_set_phase units _ i Finished Waiting u Hp Hu).
      unfold weight. lia.
    + intros j v p Hv Hq. rewrite nth_error_set_phase in Hq by assumption.
      destruct (Nat.eqb_spec j i) as [->|Hne].
      * injection Hq as <-. rewrite Hu in Hv. injection Hv as <-.
        specialize (Hhist i u Waiting Hu Hp). cbn in Hhist. left. exact Hhist.
      * exact (Hhist j v p Hv Hq).
  - (* leaves the block *)
    pose proof (nth_error_lt _ _ _ Hp) as Hi.
    split; [rewrite length_set_phase; assumption|].
    split.
    + rewrite (held_set_phase units _ i Finished Holding u Hp Hu).
      unfold weight. lia.
    + intros j v p Hv Hq. rewrite nth_error_set_phase in Hq by assumption.
      destruct (Nat.eqb_spec j i) as [->|Hne].
      * injection Hq as <-. rewrite Hu in Hv. injection Hv as <-.
        specialize (Hhist i u Holding Hu Hp). cbn in Hhist |- *.
        right. exists how.
        rewrite events_of_snoc_same by (cbn; apply Nat.eqb_refl).
        rewrite Hhist. reflexivity.
      * apply stream_history_other; [|exact (Hhist j v p Hv Hq)].
        cbn. apply Nat.eqb_neq. congruence.
Qed.

Lemma invariant_reachable units C s :
  reachable units (start C units) s -> invariant units (reserved C) s.
Proof.
  intros H. remember (start C units) as s0 eqn:Hs0.
  induction H as [s|s s' s'' _ IH Hstep].
  - subst. apply invariant_start.
  - eapply invariant_step; [apply IH; assumption | exact Hstep].
Qed.

Lemma streaming_capacity (E : Externals) env frame units kwargs d chunks :
  capacity_effects (effects (streaming env frame units kwargs d chunks))
  = [Acquire units; Release units].
Proof.
  unfold streaming.
  destruct (get_endpoint_and_headers env kwargs) as [[[ep hd]|e] kw'];
    [destruct (exit (stream_loop frame (initial d) chunks))|]; reflexivity.
Qed.

Lemma complete_capacity (E : Externals) env kwargs chunks :
  capacity_effects (effects (complete env kwargs chunks)) = [] \/
  exists p,
    prompt kwargs = Some p /\
    capacity_effects (effects (complete env kwargs chunks))
    = [Acquire (Z.of_nat (length p) * get_max_tokens kwargs);
       Release (Z.of_nat (length p) * get_max_tokens kwargs)].
Proof.
  unfold complete.
  destruct (startswith (model kwargs) (str "gpt-3.5-turbo")
            || py_in (str "gpt-4") (model kwargs)).
  - unfold chat_api.
    destruct (prompt kwargs) as [p|]; [|left; reflexivity].
    destruct (logit_bias kwargs); [left; reflexivity|].
    destruct p as [|prompt0 rest]; [left; reflexivity|].
    destruct (echo (pop_timeout kwargs)) as [echo_|]; [|left; reflexivity].
    cbn [after_yield effects].
    destruct (get_max_tokens kwargs =? 0)%Z; [left; reflexivity|].
    destruct (negb (length (prompt0 :: rest) =? 1)); [left; reflexivity|].
    destruct (chat_messages prompt0) as [msgs pr].
    cbn [after_print effects].
    destruct (logprobs (pop_timeout kwargs)); [|left; reflexivity].
    right. exists (prompt0 :: rest). split; [reflexivity|].
    apply streaming_capacity.
  - unfold completion_api.
    destruct (prompt kwargs) as [p|]; [|left; reflexivity].
    right. exists p. split; [reflexivity|]. apply streaming_capacity.
Qed.

(** C2: a request that acquires releases the same units exactly once,
    whatever way its generator ends, and a request that does not acquire
    releases nothing.  For streams that share [Capacity], each reserving a
    non-negative number of units, in every state the system can reach: a
    stream that waits has neither acquired nor released, a stream inside its
    block has acquired once, and a finished stream has either never acquired
    (it was cancelled while waiting) or acquired once and then released once,
    however it left the block; [reserved] is not negative; and once every
    stream has finished [reserved] is back to 0. *)
Theorem C2_release_once_per_acquire (E : Externals) (C : Capacity)
  (units : list Z) (s : system) :
  reserved C = 0%Z ->
  Forall (fun u => (0 <= u)%Z) units ->
  reachable units (start C units) s ->
  (forall env kwargs chunks,
     let acts := capacity_effects (effects (complete env kwargs chunks)) in
     acts = [] \/ exists u, acts = [Acquire u; Release u]) /\
  (forall i u p,
     nth_error units i = Some u ->
     nth_error (phases s) i = Some p ->
     match p with
     | Waiting => events_of i (history s) = []
     | Holding => events_of i (history s) = [Acquired i u]
     | Finished =>
         events_of i (history s) = [] \/
         exists how, events_of i (history s) = [Acquired i u; Released i u how]
     end) /\
  (0 <= reserved (capacity s))%Z /\
  (Forall (fun p => p = Finished) (phases s) -> reserved (capacity s) = 0%Z).
Proof.
  intros H0 Hpos Hreach.
  destruct (invariant_reachable units C s Hreach) as (Hlen & Hres & Hhist).
  split.
  { intros env kwargs chunks acts. subst acts.
    destruct (complete_capacity E env kwargs chunks) as [H|(p & _ & H)];
      [left; exact H | right; eexists; exact H]. }
  split; [exact Hhist|]. split.
  - rewrite Hres, H0. pose proof (held_nonneg units (phases s) Hpos). lia.
  - intros Hfin. rewrite Hres, H0, (held_all_finished units _ Hfin). reflexivity.
Qed.

Lemma sample_system_reachable :
  reachable [512; 64]%Z (start Capacity_initial [512; 64]%Z) sample_system.
Proof.
  apply (reach_step _ _ sample_system_2).
  - apply (reach_step _ _ sample_system_1).
    + apply (reach_step _ _ (start Capacity_initial [512; 64]%Z)).
      * apply reach_refl.
      * apply (step_enter [512; 64]%Z (start Capacity_initial [512; 64]%Z) 0 512
                 {| total := 32000; reserved := 512 |}); reflexivity.
    + apply (step_cancel_waiting [512; 64]%Z sample_system_1 1). reflexivity.
  - apply (step_leave [512; 64]%Z sample_system_2 0 512%Z
             (ByError UnicodeDecodeError)); reflexivity.
Defined.

Lemma C2_release_once_per_acquire_witness :
  events_of 0 (history sample_system)
  = [Acquired 0 512; Released 0 512 (ByError UnicodeDecodeError)] /\
  (0 <= reserved (capacity sample_system))%Z /\
  reserved (capacity sample_system) = 0%Z.
Proof.
  assert (Hunits : Forall (fun u => (0 <= u)%Z) [512; 64]%Z)
    by (repeat constructor; lia).
  destruct (C2_release_once_per_acquire sample_externals Capacity_initial
              [512; 64]%Z sample_system eq_refl Hunits
              sample_system_reachable) as (_ & _ & Hpos & Hzero).
  split; [reflexivity|]. split; [exact Hpos|].
  apply Hzero. repeat constructor.
Defined.

(** ** Chat-role segmentation *)

Lemma startswith_nil s : startswith s [] = true.
Proof. destruct s; reflexivity. Qed.

Lemma startswith_app s p r : startswith s p = true -> startswith (s ++ r) p = true.
Proof.
  revert s. induction p as [|c p IH]; intros s H.
  - apply startswith_nil.
  - destruct s as [|d s]; cbn in H |- *; [discriminate|].
    apply andb_true_iff in H as [H1 H2]. rewrite H1. cbn. apply IH. exact H2.
Qed.

Lemma startswith_self_app p r : startswith (p ++ r) p = true.
Proof.
  induction p as [|c p IH]; cbn; [reflexivity|].
  rewrite N.eqb_refl. exact IH.
Qed.

Lemma tag_body_found t r :
  taggable t -> tag_body (t ++ str "/>" ++ r) = Some (t, r).
Proof.
  intros [Hin Hnl]. induction t as [|c t IH].
  - reflexivity.
  - cbn [py_in] in Hin. apply orb_false_iff in Hin as [Hs Hin].
    cbn [existsb] in Hnl. apply orb_false_iff in Hnl as [Hc Hnl].
    cbn [app tag_body].
    assert (Hst : startswith (c :: t ++ str "/>" ++ r) (str "/>") = false).
    { destruct t as [|d t]; cbn -[N.eqb] in Hs |- *.
      - destruct (47 =? c)%N; reflexivity.
      - destruct (47 =? c)%N; [|reflexivity]. cbn -[N.eqb] in Hs |- *.
        destruct (62 =? d)%N; [discriminate | reflexivity]. }
    rewrite Hst. rewrite N.eqb_sym in Hc. rewrite Hc.
    rewrite (IH Hin Hnl). reflexivity.
Qed.

Lemma match_tag_marker t r :
  taggable t -> match_tag (marker t ++ r) = Some (t, r).
Proof.
  intros H. unfold match_tag, marker.
  rewrite <- !app_assoc. rewrite startswith_self_app.
  change (skipn 6 (str "<lmql:" ++ t ++ str "/>" ++ r)) with (t ++ str "/>" ++ r).
  apply tag_body_found. exact H.
Qed.

(** A marker that follows a text does not complete a [<lmql:] begun in
    the text. *)
Lemma match_tag_straddle c x t r :
  startswith (c :: x) (str "<lmql:") = false ->
  match_tag ((c :: x) ++ marker t ++ r) = None.
Proof.
  intros H. unfold match_tag.
  replace (startswith ((c :: x) ++ marker t ++ r) (str "<lmql:")) with false;
    [reflexivity|].
  symmetry. unfold marker. 
  destruct x as [|c2 [|c3 [|c4 [|c5 [|c6 x]]]]]; cbn -[N.eqb] in H |- *;
    repeat match goal with
           | |- context [(?a =? c)%N] => destruct (a =? c)%N
           | |- context [(?a =? c2)%N] => destruct (a =? c2)%N
           | |- context [(?a =? c3)%N] => destruct (a =? c3)%N
           | |- context [(?a =? c4)%N] => destruct (a =? c4)%N
           | |- context [(?a =? c5)%N] => destruct (a =? c5)%N
           | |- context [(?a =? c6)%N] => destruct (a =? c6)%N
           | _ => progress cbn -[N.eqb] in H |- *
           end; try reflexivity; try discriminate.
Qed.

Lemma search_tag_eq s :
  search_tag s
  = match match_tag s with
    | Some (t, r) => Some ([], t, r)
    | None =>
        match s with
        | [] => None
        | c :: s' =>
            match search_tag s' with
            | Some (b, t, r) => Some (c :: b, t, r)
            | None => None
            end
        end
    end.
Proof. destruct s; reflexivity. Qed.

Lemma search_tag_found x t r :
  plain x -> taggable t ->
  search_tag (x ++ marker t ++ r) = Some (x, t, r).
Proof.
  intros Hx Ht. induction x as [|c x IH].
  - rewrite search_tag_eq. cbn [app]. rewrite (match_tag_marker t r Ht). reflexivity.
  - unfold plain in Hx. cbn [py_in] in Hx. apply orb_false_iff in Hx as [Hs Hx].
    rewrite search_tag_eq.
    rewrite (match_tag_straddle c x t r Hs).
    cbn [app]. rewrite (IH Hx). reflexivity.
Qed.

Lemma match_tag_plain s : plain s -> match_tag s = None.
Proof.
  unfold plain, match_tag. intros H. destruct s as [|c s].
  - reflexivity.
  - cbn [py_in] in H. apply orb_false_iff in H as [H _]. rewrite H. reflexivity.
Qed.

Lemma search_tag_plain x : plain x -> search_tag x = None.
Proof.
  intros Hx. induction x as [|c x IH].
  - reflexivity.
  - rewrite search_tag_eq, (match_tag_plain _ Hx).
    unfold plain in Hx. cbn [py_in] in Hx. apply orb_false_iff in Hx as [_ Hx].
    rewrite (IH Hx). reflexivity.
Qed.

Lemma finditer_fuel_plain fuel pos x : plain x -> finditer_fuel fuel pos x = [].
Proof.
  intros Hx. destruct fuel; [reflexivity|]. cbn [finditer_fuel].
  rewrite (search_tag_plain x Hx). reflexivity.
Qed.

Lemma skipn_length_app {A : Type} (a b : list A) : skipn (length a) (a ++ b) = b.
Proof. induction a as [|c a IH]; [reflexivity | exact IH]. Qed.

Lemma firstn_length_app {A : Type} (a b : list A) : firstn (length a) (a ++ b) = a.
Proof. induction a as [|c a IH]; [reflexivity | cbn; f_equal; exact IH]. Qed.

Lemma length_marker t : length (marker t) = 6 + length t + 2.
Proof. unfold marker. rewrite !length_app. reflexivity. Qed.

Lemma render_length x rest : length rest <= length (render x rest).
Proof.
  revert x. induction rest as [|[t y] rest IH]; intros x; cbn [render length].
  - lia.
  - rewrite !length_app, length_marker. specialize (IH y). lia.
Qed.

Lemma segments_fold rest :
  forall x tg pre segs fuel,
    plain x -> well_marked rest -> length rest <= fuel ->
    let s := pre ++ render x rest in
    let st := fold_left (seg_step s)
                (finditer_fuel fuel (length pre) (render x rest))
                {| segments := segs; current_tag := tg; offset := length pre |} in
    segments st ++ [{| tag := current_tag st; text := skipn (offset st) s |}]
    = segs ++ segments_of tg x rest.
Proof.
  induction rest as [|[t y] rest IH]; intros x tg pre segs fuel Hx Hrest Hfuel s st.
  - subst st s. cbn [render] in *. rewrite (finditer_fuel_plain _ _ x Hx).
    cbn. rewrite skipn_length_app. reflexivity.
  - inversion Hrest as [|? ? [Ht Hy] Hrest']; subst. cbn [fst snd] in Ht, Hy.
    destruct fuel as [|fuel]; [cbn in Hfuel; lia|].
    subst st. cbn [render] in *. cbn [finditer_fuel].
    rewrite (search_tag_found x t (render y rest) Hx Ht).
    cbn [fold_left].
    set (st1 := seg_step s _ _).
    assert (Hs : s = (pre ++ x ++ marker t) ++ render y rest).
    { subst s. rewrite <- !app_assoc. reflexivity. }
    assert (Hlen : length pre + length x + 6 + length t + 2
                   = length (pre ++ x ++ marker t)).
    { rewrite !length_app, length_marker. lia. }
    assert (Hst1 : st1 = {| segments :=
                              segs ++ (if length x =? 0 then []
                                       else [{| tag := tg; text := x |}]);
                            current_tag := Some t;
                            offset := length (pre ++ x ++ marker t) |}).
    { subst st1. unfold seg_step. cbn [m_start m_end m_group1 offset segments current_tag].
      rewrite Hlen. f_equal.
      replace (length pre + length x - length pre) with (length x) by lia.
      destruct x as [|c x]; cbn [length Nat.ltb Nat.leb Nat.eqb].
      - rewrite app_nil_r. reflexivity.
      - f_equal. f_equal. f_equal. unfold slice.
        replace (length pre + S (length x) - length pre) with (length (c :: x))
          by (cbn [length]; lia).
        subst s. rewrite skipn_length_app. apply firstn_length_app. }
    rewrite Hst1, Hlen.
    pose proof (IH y (Some t) (pre ++ x ++ marker t)
                  (segs ++ (if length x =? 0 then [] else [{| tag := tg; text := x |}]))
                  fuel Hy Hrest' ltac:(cbn in Hfuel; lia)) as H.
    cbn zeta in H. rewrite <- Hs in H. rewrite H.
    cbn [segments_of]. rewrite app_assoc. reflexivity.
Qed.

Lemma tagged_segments_render x rest :
  plain x -> well_marked rest ->
  tagged_segments (render x rest) = segments_of None x rest.
Proof.
  intros Hx Hrest. unfold tagged_segments, finditer.
  exact (segments_fold rest x None [] [] (length (render x rest)) Hx Hrest
           (render_length x rest)).
Qed.

Lemma chat_messages_fold segs acc :
  fold_left
    (fun acc sg =>
       let '(r, w) := role_of_tag (tag sg) in
       (fst acc ++ [{| role := r; content := text sg |}], snd acc ++ w))
    segs acc
  = (fst acc ++ map message_of segs, snd acc ++ flat_map warning_of segs).
Proof.
  revert acc. induction segs as [|sg segs IH]; intros [ms ws].
  - cbn. rewrite !app_nil_r. reflexivity.
  - cbn [fold_left]. rewrite IH. cbn [map flat_map].
    unfold message_of at 2, warning_of at 2.
    destruct (role_of_tag (tag sg)) as [r w]. cbn [fst snd].
    rewrite <- !app_assoc. reflexivity.
Qed.

Lemma chat_messages_segments prompt :
  chat_messages prompt
  = (map message_of (tagged_segments prompt),
     flat_map warning_of (tagged_segments prompt)).
Proof. unfold chat_messages. rewrite chat_messages_fold. reflexivity. Qed.

(** C7, as amended: the tag of a marker names the role of the text that
    follows it, by the table system, assistant, user, no tag to user, any
    other tag to user with a warning.  For a prompt made of a text and of
    markers each followed by a text, one message is emitted, in order, for
    every non-empty text that stands before a marker and one for the text
    after the last marker, empty or not.  So [<lmql:system/>A<lmql:user/>B]
    gives system A, user B, and a prompt without marker gives the single
    message user with the whole prompt. *)
Theorem C7_chat_messages :
  role_of_tag (Some (str "system")) = (str "system", []) /\
  role_of_tag (Some (str "assistant")) = (str "assistant", []) /\
  role_of_tag (Some (str "user")) = (str "user", []) /\
  role_of_tag None = (str "user", []) /\
  (forall t, t <> str "system" -> t <> str "assistant" -> t <> str "user" ->
             role_of_tag (Some t) = (str "user", [PrintInvalidTag t])) /\
  (forall x rest,
     plain x -> well_marked rest ->
     chat_messages (render x rest)
     = (map message_of (segments_of None x rest),
        flat_map warning_of (segments_of None x rest))) /\
  fst (chat_messages (str "<lmql:system/>A<lmql:user/>B"))
  = [{| role := str "system"; content := str "A" |};
     {| role := str "user"; content := str "B" |}] /\
  (forall x, plain x ->
             chat_messages x = ([{| role := str "user"; content := x |}], [])).
Proof.
  repeat split; try reflexivity.
  - intros t H1 H2 H3. unfold role_of_tag.
    rewrite !str_eqb_neq by assumption. reflexivity.
  - intros x rest Hx Hrest.
    rewrite chat_messages_segments, (tagged_segments_render x rest Hx Hrest).
    reflexivity.
  - intros x Hx.
    rewrite chat_messages_segments.
    change x with (render x []) at 1 2.
    rewrite (tagged_segments_render x [] Hx (Forall_nil _)).
    reflexivity.
Qed.

Lemma well_marked_sample :
  well_marked [(str "system", str "You are terse."); (str "tool", []);
               (str "user", str "Hi")].
Proof. repeat constructor. Qed.

Lemma C7_chat_messages_witness :
  chat_messages
    (str "Note.<lmql:system/>You are terse.<lmql:tool/><lmql:user/>Hi")
  = ([{| role := str "user"; content := str "Note." |};
      {| role := str "system"; content := str "You are terse." |};
      {| role := str "user"; content := str "Hi" |}], []).
Proof.
  exact (proj1 (proj2 (proj2 (proj2 (proj2 (proj2 C7_chat_messages)))))
           (str "Note.")
           [(str "system", str "You are terse."); (str "tool", []);
            (str "user", str "Hi")]
           eq_refl well_marked_sample).
Defined.

(** C7, as stated, fails: in [<lmql:system/>A<lmql:user/>] the only
    non-empty segment is A, yet two messages are emitted, the second with
    empty content. *)
Lemma C7_counterexample :
  render [] [(str "system", str "A"); (str "user", [])]
  = str "<lmql:system/>A<lmql:user/>" /\
  map message_of (spec_segments_of [] [(str "system", str "A"); (str "user", [])])
  = [{| role := str "system"; content := str "A" |}] /\
  fst (chat_messages (str "<lmql:system/>A<lmql:user/>"))
  = [{| role := str "system"; content := str "A" |};
     {| role := str "user"; content := [] |}].
Proof. repeat split. Qed.

(** ** Splitting and the reassembly buffer *)

Lemma startswith_length s p : startswith s p = true -> length p <= length s.
Proof.
  revert s. induction p as [|c p IH]; intros s H; cbn; [lia|].
  destruct s as [|d s]; cbn in H; [discriminate|].
  apply andb_true_iff in H as [_ H]. apply IH in H. cbn. lia.
Qed.

Lemma startswith_long s p r :
  length p <= length s -> startswith (s ++ r) p = startswith s p.
Proof.
  revert s. induction p as [|c p IH]; intros s H; [reflexivity|].
  destruct s as [|d s]; cbn in H; [lia|].
  cbn. rewrite IH by lia. reflexivity.
Qed.

Lemma startswith_split s p : startswith s p = true -> s = p ++ skipn (length p) s.
Proof.
  revert s. induction p as [|c p IH]; intros s H; [reflexivity|].
  destruct s as [|d s]; cbn in H; [discriminate|].
  apply andb_true_iff in H as [H1 H2]. apply N.eqb_eq in H1. subst d.
  cbn. f_equal. apply IH. exact H2.
Qed.

(** [cut] finds an occurrence: the text is the part before it, the
    separator and the part after it. *)
Lemma cut_spec s sep a r : cut s sep = Some (a, r) -> s = a ++ sep ++ r.
Proof.
  revert a r. induction s as [|c s IH]; intros a r H.
  - cbn in H. destruct (startswith [] sep) eqn:Hs; [|discriminate].
    injection H as <- <-. apply startswith_split in Hs. exact Hs.
  - cbn [cut] in H. destruct (startswith (c :: s) sep) eqn:Hs.
    + injection H as <- <-. apply startswith_split in Hs. exact Hs.
    + destruct (cut s sep) as [[a' r']|] eqn:Hc; [|discriminate].
      injection H as <- <-. cbn. f_equal. apply IH. reflexivity.
Qed.

Lemma cut_length s sep a r :
  cut s sep = Some (a, r) -> length s = length a + length sep + length r.
Proof.
  intros H. apply cut_spec in H. subst s. rewrite !length_app. lia.
Qed.

(** An occurrence found in a text is still the leftmost one when more
    text is appended. *)
Lemma cut_app s sep a r t :
  cut s sep = Some (a, r) -> cut (s ++ t) sep = Some (a, r ++ t).
Proof.
  revert a r. induction s as [|c s IH]; intros a r H.
  - cbn in H. destruct (startswith [] sep) eqn:Hs; [|discriminate].
    injection H as <- <-. destruct sep; [|discriminate].
    cbn. destruct t; reflexivity.
  - cbn [cut] in H. destruct (startswith (c :: s) sep) eqn:Hs.
    + injection H as <- <-.
      change ((c :: s) ++ t) with (c :: s ++ t). cbn [cut].
      change (c :: s ++ t) with ((c :: s) ++ t).
      rewrite (startswith_app _ _ t Hs).
      f_equal. f_equal. apply startswith_length in Hs.
      rewrite skipn_app. replace (length sep - length (c :: s)) with 0 by lia.
      reflexivity.
    + destruct (cut s sep) as [[a' r']|] eqn:Hc; [|discriminate].
      injection H as <- <-.
      change ((c :: s) ++ t) with (c :: s ++ t). cbn [cut].
      change (c :: s ++ t) with ((c :: s) ++ t).
      rewrite startswith_long, Hs.
      * rewrite (IH a' r' eq_refl). reflexivity.
      * apply cut_length in Hc. cbn. lia.
Qed.

Lemma split_fuel_enough fuel s sep :
  sep <> [] -> length s <= fuel -> split_fuel fuel s sep = py_split s sep.
Proof.
  intros Hsep. unfold py_split.
  assert (H : forall n m s, length s <= n -> length s <= m ->
                            split_fuel n s sep = split_fuel m s sep).
  { induction n as [|n IH]; intros m s0 Hn Hm.
    - destruct s0; [|cbn in Hn; lia]. destruct m; cbn.
      + reflexivity.
      + destruct sep as [|c sep]; [congruence|]. reflexivity.
    - destruct m as [|m].
      + destruct s0; [|cbn in Hm; lia]. cbn.
        destruct sep as [|c sep]; [congruence|]. reflexivity.
      + cbn [split_fuel]. destruct (cut s0 sep) as [[a r]|] eqn:Hc; [|reflexivity].
        f_equal. apply cut_length in Hc.
        assert (0 < length sep) by (destruct sep; [congruence | cbn; lia]).
        apply IH; lia. }
  intros Hf. apply H; [exact Hf | lia].
Qed.

(** [s.split(sep)], one separator at a time. *)
Lemma py_split_cut s sep :
  sep <> [] ->
  py_split s sep
  = match cut s sep with
    | None => [s]
    | Some (a, r) => a :: py_split r sep
    end.
Proof.
  intros Hsep. unfold py_split at 1. destruct s as [|c s].
  - cbn. destruct sep as [|d sep]; [congruence|]. reflexivity.
  - cbn [length split_fuel].
    destruct (cut (c :: s) sep) as [[a r]|] eqn:Hc; [|reflexivity].
    f_equal. apply split_fuel_enough; [exact Hsep|].
    apply cut_length in Hc. cbn in Hc.
    assert (0 < length sep) by (destruct sep; [congruence | cbn; lia]). lia.
Qed.

Lemma py_split_not_nil s sep : py_split s sep <> [].
Proof.
  unfold py_split. destruct (length s); cbn; [discriminate|].
  destruct (cut s sep) as [[a r]|]; discriminate.
Qed.

(** Joining what was split gives the text back. *)
Lemma py_join_split s sep : sep <> [] -> py_join sep (py_split s sep) = s.
Proof.
  intros Hsep. remember (length s) as n eqn:Hn.
  revert s Hn. induction n as [n IH] using lt_wf_ind. intros s Hn.
  rewrite (py_split_cut s sep Hsep).
  destruct (cut s sep) as [[a r]|] eqn:Hc; [|reflexivity].
  pose proof (cut_length _ _ _ _ Hc) as Hl.
  assert (0 < length sep) by (destruct sep; [congruence | cbn; lia]).
  cbn [py_join].
  destruct (py_split r sep) as [|x l] eqn:Hsp; [exfalso; exact (py_split_not_nil r sep Hsp)|].
  rewrite <- Hsp. rewrite (IH (length r)); [|lia|reflexivity].
  symmetry. apply cut_spec. exact Hc.
Qed.

Lemma py_in_app sub s t : py_in sub s = true -> py_in sub (s ++ t) = true.
Proof.
  induction s as [|c s IH]; intros H.
  - cbn in H. rewrite orb_false_r in H.
    destruct sub; [|discriminate]. destruct t; reflexivity.
  - cbn [py_in] in H. apply orb_true_iff in H as [H|H].
    + change ((c :: s) ++ t) with (c :: s ++ t). cbn [py_in].
      change (c :: s ++ t) with ((c :: s) ++ t).
      rewrite (startswith_app _ _ t H). reflexivity.
    + change ((c :: s) ++ t) with (c :: s ++ t). cbn [py_in].
      rewrite (IH H). apply orb_true_r.
Qed.

Lemma NL_DATA_not_nil : NL_DATA <> [].
Proof. discriminate. Qed.

(** The fragments that survive [drop_empty], when there are at least two:
    the first is found before a separator, the rest is what follows that
    separator. *)
Lemma drop_empty_split b :
  forall cs,
    drop_empty (py_split b NL_DATA) = Ok cs -> 2 <= length cs ->
    exists p c r,
      b = p ++ c ++ NL_DATA ++ r /\ c <> [] /\ cs = c :: py_split r NL_DATA /\
      forall t, drop_empty (py_split (b ++ t) NL_DATA)
                = Ok (c :: py_split (r ++ t) NL_DATA).
Proof.
  remember (length b) as n eqn:Hn. revert b Hn.
  induction n as [n IH] using lt_wf_ind. intros b Hn cs Hd Hlen.
  rewrite (py_split_cut b NL_DATA NL_DATA_not_nil) in Hd.
  destruct (cut b NL_DATA) as [[a r]|] eqn:Hc.
  - pose proof (cut_length _ _ _ _ Hc) as Hl.
    pose proof (cut_spec _ _ _ _ Hc) as Hb.
    cbn [drop_empty] in Hd. destruct a as [|c0 a].
    + cbn [length Nat.eqb] in Hd.
      destruct (IH (length r) ltac:(cbn in Hl; lia) r eq_refl cs Hd Hlen)
        as (p & c & r' & Hr & Hne & Hcs & Happ).
      exists (NL_DATA ++ p), c, r'. split; [|split; [exact Hne|split; [exact Hcs|]]].
      * rewrite Hb, Hr. cbn [app]. rewrite <- !app_assoc. reflexivity.
      * intros t. rewrite (py_split_cut (b ++ t) NL_DATA NL_DATA_not_nil).
        rewrite (cut_app _ _ _ _ t Hc). cbn [drop_empty length Nat.eqb].
        apply Happ.
    + cbn [length Nat.eqb] in Hd. injection Hd as <-.
      exists [], (c0 :: a), r. split; [exact Hb|]. split; [discriminate|].
      split; [reflexivity|].
      intros t. rewrite (py_split_cut (b ++ t) NL_DATA NL_DATA_not_nil).
      rewrite (cut_app _ _ _ _ t Hc). reflexivity.
  - cbn [drop_empty] in Hd. destruct (length b =? 0); [discriminate|].
    injection Hd as <-. cbn in Hlen. lia.
Qed.

(** What [extract] returns when it returns a frame. *)
Lemma extract_some b f rest :
  extract b = Ok (Some (f, rest)) ->
  exists p c,
    b = p ++ c ++ NL_DATA ++ rest /\ f = unlabel (strip c) /\
    forall t, extract (b ++ t) = Ok (Some (f, rest ++ t)).
Proof.
  unfold extract. destruct (py_in DATA b) eqn:Hin; [|discriminate].
  destruct (drop_empty (py_split b NL_DATA)) as [cs|e] eqn:Hd; [|discriminate].
  cbn [bind]. destruct (length cs =? 1) eqn:H1; [discriminate|].
  intros H. injection H as <- <-.
  assert (Hlen : 2 <= length cs).
  { apply Nat.eqb_neq in H1. destruct cs as [|x [|y cs]]; cbn in *; try lia.
    exfalso. clear -Hd. revert Hd. generalize (py_split b NL_DATA).
    induction l as [|z l IHl]; cbn; [discriminate|].
    destruct (length z =? 0); [exact IHl | discriminate]. }
  destruct (drop_empty_split b cs Hd Hlen) as (p & c & r & Hb & Hne & -> & Happ).
  cbn [hd tl]. rewrite (py_join_split r NL_DATA NL_DATA_not_nil).
  exists p, c. split; [exact Hb|]. split; [reflexivity|].
  intros t. rewrite (py_in_app _ _ t Hin), (Happ t). cbn [bind length].
  destruct (py_split (r ++ t) NL_DATA) as [|x l] eqn:Hsp;
    [exfalso; exact (py_split_not_nil _ _ Hsp)|].
  cbn [length Nat.eqb hd tl]. rewrite <- Hsp.
  rewrite (py_join_split (r ++ t) NL_DATA NL_DATA_not_nil). reflexivity.
Qed.

Lemma extract_shorter b f rest :
  extract b = Ok (Some (f, rest)) -> length rest < length b.
Proof.
  intros H. destruct (extract_some b f rest H) as (p & c & Hb & _ & _).
  rewrite Hb, !length_app. cbn. lia.
Qed.

(** *** The end-of-stream flag *)

Lemma startswith_foreign D y c0 z :
  ~ In c0 D -> startswith (y ++ c0 :: z) D = startswith y D.
Proof.
  revert y. induction D as [|d D IH]; intros y Hc; [reflexivity|].
  destruct y as [|c y]; cbn -[N.eqb].
  - destruct (N.eqb_spec d c0) as [->|_]; [|reflexivity].
    exfalso. apply Hc. left. reflexivity.
  - rewrite IH; [reflexivity|]. intros H. apply Hc. right. exact H.
Qed.

Lemma lstrip_space_end D y c :
  spaceless D -> isspace c = true ->
  startswith (lstrip (y ++ [c])) D = startswith (lstrip y) D.
Proof.
  intros HD Hc. induction y as [|e y IH].
  - cbn. rewrite Hc. reflexivity.
  - cbn [app lstrip]. destruct (isspace e); [exact IH|].
    change (e :: y ++ [c]) with ((e :: y) ++ c :: []).
    apply startswith_foreign. intros H. apply HD in H. congruence.
Qed.

Lemma lstrip_rev_lstrip D s :
  spaceless D ->
  startswith (lstrip (rev (lstrip s))) D = startswith (lstrip (rev s)) D.
Proof.
  intros HD. induction s as [|c s IH]; [reflexivity|].
  cbn [lstrip]. destruct (isspace c) eqn:Hc; [|reflexivity].
  rewrite IH. cbn [rev]. symmetry. apply lstrip_space_end; assumption.
Qed.

Lemma spaceless_rev_DONE : spaceless (rev DONE).
Proof.
  intros d H. cbn in H.
  repeat (destruct H as [<-|H]; [reflexivity|]). contradiction.
Qed.

(** The flag looks at the end of the buffer only. *)
Lemma is_done_rev s :
  endswith (strip s) DONE = startswith (lstrip (rev s)) (rev DONE).
Proof.
  unfold endswith, strip, rstrip. rewrite rev_involutive.
  apply lstrip_rev_lstrip. exact spaceless_rev_DONE.
Qed.

Lemma lstrip_after_delimiter y z :
  startswith (lstrip (y ++ 32%N :: 58%N :: z)) (rev DONE)
  = startswith (lstrip y) (rev DONE).
Proof.
  induction y as [|c y IH].
  - reflexivity.
  - cbn [app lstrip]. destruct (isspace c); [exact IH|].
    change (c :: y ++ 32%N :: 58%N :: z) with ((c :: y) ++ 32%N :: 58%N :: z).
    apply startswith_foreign. cbn. intros H.
    repeat (destruct H as [H|H]; [discriminate H|]). contradiction.
Qed.

(** Text up to and including a frame delimiter does not bear on the
    flag. *)
Lemma is_done_after_delimiter p x :
  endswith (strip (p ++ NL_DATA ++ x)) DONE = endswith (strip x) DONE.
Proof.
  rewrite !is_done_rev. rewrite !rev_app_distr, <- app_assoc.
  change (rev NL_DATA) with (32%N :: 58%N :: rev (10%N :: str "data")).
  cbn [app]. apply lstrip_after_delimiter.
Qed.

(** ** The decode loop across chunk boundaries *)

Lemma before_nil r : before [] [] r = r.
Proof. destruct r; reflexivity. Qed.

Lemma before_before ys ps ys' ps' r :
  before ys ps (before ys' ps' r) = before (ys ++ ys') (ps ++ ps') r.
Proof. unfold before. cbn. rewrite !app_assoc. reflexivity. Qed.

Lemma before_stretch ys ps r :
  before ys ps r
  = {| yielded := ys ++ yielded r; printed_lines := ps ++ printed_lines r;
       locals := locals r; exit := exit r |}.
Proof. reflexivity. Qed.

Section Chunking.
Context {E : Externals}.
Variable frame : dstate -> pystr -> list printed * result (json * dstate).
Hypothesis frame_blind : buffer_blind frame.

Lemma set_current_chunk_same st' b :
  current_chunk st' = b -> set_current_chunk st' b = st'.
Proof. intros <-. destruct st'; reflexivity. Qed.

(** With more fuel than the buffer has characters the inner loop comes
    to its end, and the amount of fuel does not matter. *)
Lemma drain_fuel fuel :
  forall st fuel',
    length (current_chunk st) < fuel ->
    length (current_chunk st) < fuel' ->
    drain frame fuel st = drain frame fuel' st.
Proof.
  induction fuel as [|fuel IH]; intros st fuel' H1 H2; [lia|].
  destruct fuel' as [|fuel']; [lia|].
  cbn [drain]. destruct (extract (current_chunk st)) as [[[f rest]|]|e] eqn:Hx;
    try reflexivity.
  pose proof (extract_shorter _ _ _ Hx) as Hlt.
  destruct (length (strip f) =? 0).
  - apply IH; cbn; lia.
  - destruct (str_eqb f DONE); [reflexivity|].
    destruct (frame (set_current_chunk st rest) f) as [pr [[ev st']|e]] eqn:Hf;
      [|reflexivity].
    apply (proj1 frame_blind) in Hf. cbn in Hf.
    f_equal. apply IH; rewrite Hf; lia.
Qed.

Lemma drain_has_fuel fuel :
  forall st,
    length (current_chunk st) < fuel ->
    exit (drain frame fuel st) <> Ends FuelExhausted.
Proof.
  induction fuel as [|fuel IH]; intros st H1; [lia|].
  cbn [drain]. destruct (extract (current_chunk st)) as [[[f rest]|]|e] eqn:Hx;
    try (cbn; discriminate).
  pose proof (extract_shorter _ _ _ Hx) as Hlt.
  destruct (length (strip f) =? 0).
  - apply IH; cbn; lia.
  - destruct (str_eqb f DONE); [cbn; discriminate|].
    destruct (frame (set_current_chunk st rest) f) as [pr [[ev st']|e]] eqn:Hf;
      [|cbn; discriminate].
    apply (proj1 frame_blind) in Hf. cbn in Hf.
    cbn [before exit]. apply IH. rewrite Hf. lia.
Qed.

(** When the inner loop, run on a buffer, ends waiting for more text, its
    run on the buffer with text appended starts with the same frames and
    goes on as a run on what was left with that text appended. *)
Lemma drain_grow fuel :
  forall st t fuel2 fuel3 r,
    drain frame fuel st = r ->
    exit r = Goes ->
    length (current_chunk st) < fuel ->
    length (current_chunk st ++ t) < fuel2 ->
    length (current_chunk (locals r) ++ t) < fuel3 ->
    drain frame fuel2 (grow st t)
    = before (yielded r) (printed_lines r) (drain frame fuel3 (grow (locals r) t)).
Proof.
  induction fuel as [|fuel IH]; intros st t fuel2 fuel3 r Hr Hgo H1 H2 H3; [lia|].
  cbn [drain] in Hr.
  destruct (extract (current_chunk st)) as [[[f rest]|]|e] eqn:Hx.
  - destruct (extract_some _ _ _ Hx) as (p & c & Hb & Hf & Happ).
    pose proof (extract_shorter _ _ _ Hx) as Hlt.
    destruct fuel2 as [|fuel2]; [lia|].
    cbn [drain].
    change (current_chunk (grow st t)) with (current_chunk st ++ t).
    rewrite (Happ t).
    change (set_current_chunk (grow st t) (rest ++ t))
      with (set_current_chunk (set_current_chunk st rest) (rest ++ t)).
    rewrite length_app in H2.
    destruct (length (strip f) =? 0).
    + apply (IH (set_current_chunk st rest) t fuel2 fuel3 r Hr Hgo);
        [cbn; lia | cbn; rewrite length_app; lia | exact H3].
    + destruct (str_eqb f DONE); [subst r; discriminate Hgo|].
      rewrite (proj2 frame_blind (set_current_chunk st rest) (rest ++ t) f).
      destruct (frame (set_current_chunk st rest) f) as [pr [[ev st']|e]] eqn:Hfr;
        cbn [fst snd]; [|subst r; discriminate Hgo].
      pose proof (proj1 frame_blind _ _ _ _ _ Hfr) as Hk. cbn in Hk.
      subst r. cbn [before exit yielded printed_lines locals] in Hgo, H3 |- *.
      replace (set_current_chunk st' (rest ++ t)) with (grow st' t)
        by (unfold grow; rewrite Hk; reflexivity).
      rewrite (IH st' t fuel2 fuel3 _ eq_refl Hgo);
        [|rewrite Hk; lia|rewrite length_app, Hk; lia|exact H3].
      rewrite before_before. reflexivity.
  - subst r. cbn [stop yielded printed_lines locals] in H3 |- *.
    rewrite before_nil. apply drain_fuel; cbn; rewrite ?length_app in *; lia.
  - subst r. discriminate Hgo.
Qed.

(** The text consumed by a run that ends waiting is empty or ends with
    a frame delimiter. *)
Lemma drain_consumed fuel :
  forall st,
    exit (drain frame fuel st) = Goes ->
    current_chunk (locals (drain frame fuel st)) = current_chunk st \/
    exists p,
      current_chunk st
      = p ++ NL_DATA ++ current_chunk (locals (drain frame fuel st)).
Proof.
  induction fuel as [|fuel IH]; intros st Hgo; [discriminate Hgo|].
  cbn [drain] in Hgo |- *.
  destruct (extract (current_chunk st)) as [[[f rest]|]|e] eqn:Hx;
    [|left; reflexivity|discriminate Hgo].
  destruct (extract_some _ _ _ Hx) as (p & c & Hb & _ & _).
  assert (Hnext : forall st1,
             current_chunk st1 = rest ->
             exit (drain frame fuel st1) = Goes ->
             exists q, current_chunk st
                       = q ++ NL_DATA ++ current_chunk (locals (drain frame fuel st1))).
  { intros st1 H1 Hg. destruct (IH st1 Hg) as [Heq|[q Hq]].
    - exists (p ++ c). rewrite Heq, H1, Hb, <- app_assoc. reflexivity.
    - exists (p ++ c ++ NL_DATA ++ q). rewrite Hb, <- H1, Hq.
      rewrite <- !app_assoc. reflexivity. }
  right. destruct (length (strip f) =? 0).
  - apply Hnext; [reflexivity | exact Hgo].
  - destruct (str_eqb f DONE); [discriminate Hgo|].
    destruct (frame (set_current_chunk st rest) f) as [pr [[ev st']|e]] eqn:Hfr;
      [|discriminate Hgo].
    pose proof (proj1 frame_blind _ _ _ _ _ Hfr) as Hk. cbn in Hk.
    cbn [before exit locals] in Hgo |- *. apply Hnext; assumption.
Qed.

End Chunking.

(** *** Decoding chunk by chunk *)

Lemma utf8_decode_cons x0 r0 :
  utf8_decode (x0 :: r0)
  = let b0 := Byte.to_N x0 in
    if (b0 <? 128)%N then option_map (cons b0) (utf8_decode r0)
    else if in_range 194 223 b0 then
      match r0 with
      | x1 :: r1 =>
          let b1 := Byte.to_N x1 in
          if in_range 128 191 b1
          then option_map (cons ((b0 - 192) * 64 + (b1 - 128))%N) (utf8_decode r1)
          else None
      | _ => None
      end
    else if in_range 224 239 b0 then
      match r0 with
      | x1 :: x2 :: r2 =>
          let b1 := Byte.to_N x1 in
          let b2 := Byte.to_N x2 in
          if in_range (if (b0 =? 224)%N then 160 else 128)
                      (if (b0 =? 237)%N then 159 else 191) b1
             && in_range 128 191 b2
          then option_map
                 (cons ((b0 - 224) * 4096 + (b1 - 128) * 64 + (b2 - 128))%N)
                 (utf8_decode r2)
          else None
      | _ => None
      end
    else if in_range 240 244 b0 then
      match r0 with
      | x1 :: x2 :: x3 :: r3 =>
          let b1 := Byte.to_N x1 in
          let b2 := Byte.to_N x2 in
          let b3 := Byte.to_N x3 in
          if in_range (if (b0 =? 240)%N then 144 else 128)
                      (if (b0 =? 244)%N then 143 else 191) b1
             && in_range 128 191 b2 && in_range 128 191 b3
          then option_map
                 (cons ((b0 - 240) * 262144 + (b1 - 128) * 4096
                        + (b2 - 128) * 64 + (b3 - 128))%N)
                 (utf8_decode r3)
          else None
      | _ => None
      end
    else None.
Proof. reflexivity. Qed.

(** Chunks that decode on their own decode to the same text when they
    are put together. *)
Lemma utf8_decode_app c1 :
  forall c2 t1 t2,
    utf8_decode c1 = Some t1 -> utf8_decode c2 = Some t2 ->
    utf8_decode (c1 ++ c2) = Some (t1 ++ t2).
Proof.
  remember (length c1) as n eqn:Hn. revert c1 Hn.
  induction n as [n IH] using lt_wf_ind. intros c1 Hn c2 t1 t2 H1 H2.
  assert (Hrec : forall r c t1,
             length r < n ->
             option_map (cons c) (utf8_decode r) = Some t1 ->
             option_map (cons c) (utf8_decode (r ++ c2)) = Some (t1 ++ t2)).
  { intros r c t Hlt H. destruct (utf8_decode r) as [t'|] eqn:Hr; [|discriminate].
    cbn in H. injection H as <-.
    rewrite (IH (length r) Hlt r eq_refl c2 t' t2 Hr H2). reflexivity. }
  destruct c1 as [|x0 r0].
  - cbn in H1. injection H1 as <-. exact H2.
  - change ((x0 :: r0) ++ c2) with (x0 :: r0 ++ c2).
    rewrite utf8_decode_cons in H1 |- *. cbn zeta in H1 |- *.
    cbn [length] in Hn.
    destruct (Byte.to_N x0 <? 128)%N.
    { apply Hrec; [lia | exact H1]. }
    destruct (in_range 194 223 (Byte.to_N x0)).
    { destruct r0 as [|x1 r1]; [discriminate|]. cbn [app].
      destruct (in_range 128 191 (Byte.to_N x1)); [|discriminate].
      apply Hrec; [cbn in Hn; lia | exact H1]. }
    destruct (in_range 224 239 (Byte.to_N x0)).
    { destruct r0 as [|x1 [|x2 r2]]; try discriminate. cbn [app].
      destruct (in_range _ _ (Byte.to_N x1) && in_range 128 191 (Byte.to_N x2));
        [|discriminate].
      apply Hrec; [cbn in Hn; lia | exact H1]. }
    destruct (in_range 240 244 (Byte.to_N x0)); [|discriminate].
    destruct r0 as [|x1 [|x2 [|x3 r3]]]; try discriminate. cbn [app].
    destruct (in_range _ _ (Byte.to_N x1) && in_range 128 191 (Byte.to_N x2)
              && in_range 128 191 (Byte.to_N x3)); [|discriminate].
    apply Hrec; [cbn in Hn; lia | exact H1].
Qed.

Section ChunkBoundaries.
Context {E : Externals}.
Variable frame : dstate -> pystr -> list printed * result (json * dstate).
Hypothesis frame_blind : buffer_blind frame.

Lemma grow_grow st t1 t2 : grow (grow st t1) t2 = grow st (t1 ++ t2).
Proof. unfold grow. cbn. rewrite app_assoc. reflexivity. Qed.

(** A chunk that is taken in with the loop going on, followed by a chunk
    that decodes, is taken in like the two chunks in one. *)
Lemma feed_app st c1 c2 :
  exit (feed frame st c1) = Goes ->
  utf8_decode c2 <> None ->
  feed frame st (c1 ++ c2)
  = before (yielded (feed frame st c1)) (printed_lines (feed frame st c1))
      (feed frame (locals (feed frame st c1)) c2).
Proof.
  intros Hgo Hc2. destruct (utf8_decode c2) as [t2|] eqn:H2; [|congruence].
  clear Hc2. unfold feed in Hgo |- *. rewrite H2.
  destruct (utf8_decode c1) as [t1|] eqn:H1; [|discriminate Hgo].
  rewrite (utf8_decode_app c1 c2 t1 t2 H1 H2).
  fold (grow st t1) in Hgo |- *. fold (grow st (t1 ++ t2)).
  set (r1 := drain frame (S (length (current_chunk (grow st t1)))) (grow st t1)) in *.
  assert (Hr1 : exit r1 = Goes /\ endswith (strip (current_chunk (grow st t1))) DONE = false).
  { destruct (exit r1) eqn:Hx;
      [|rewrite Hx in Hgo; discriminate Hgo|rewrite Hx in Hgo; discriminate Hgo].
    destruct (endswith (strip (current_chunk (grow st t1))) DONE);
      [discriminate Hgo | auto]. }
  destruct Hr1 as [Hx1 Hd1]. rewrite Hx1, Hd1.
  fold (grow (locals r1) t2).
  rewrite <- grow_grow.
  rewrite (drain_grow frame frame_blind _ (grow st t1) t2 _
             (S (length (current_chunk (grow (locals r1) t2)))) r1 eq_refl Hx1);
    [| lia | cbn; lia | cbn; lia].
  assert (Hdone : endswith (strip (current_chunk (grow (grow st t1) t2))) DONE
                  = endswith (strip (current_chunk (grow (locals r1) t2))) DONE).
  { cbn [grow set_current_chunk current_chunk].
    destruct (drain_consumed frame frame_blind _ (grow st t1) Hx1) as [Heq|[p Hp]];
      fold r1 in Heq || fold r1 in Hp.
    - cbn [grow set_current_chunk current_chunk] in Heq. rewrite Heq. reflexivity.
    - cbn [grow set_current_chunk current_chunk] in Hp. rewrite Hp.
      rewrite <- !app_assoc. apply is_done_after_delimiter. }
  rewrite Hdone. cbn [before exit].
  set (r2 := drain frame _ (grow (locals r1) t2)).
  destruct (exit r2); [|reflexivity|reflexivity].
  destruct (endswith (strip (current_chunk (grow (locals r1) t2))) DONE); reflexivity.
Qed.

Lemma taken_in_decodes st chunks :
  taken_in frame st chunks -> utf8_decode (concat chunks) <> None.
Proof.
  revert st. induction chunks as [|c chunks IH]; intros st H; [contradiction|].
  destruct chunks as [|c' chunks].
  - cbn in H |- *. rewrite app_nil_r. exact H.
  - destruct H as [Hgo H]. specialize (IH _ H).
    change (concat (c :: c' :: chunks)) with (c ++ concat (c' :: chunks)).
    unfold feed in Hgo. destruct (utf8_decode c) as [t|] eqn:Hc; [|discriminate Hgo].
    destruct (utf8_decode (concat (c' :: chunks))) as [t'|] eqn:Hc'; [|congruence].
    rewrite (utf8_decode_app c _ t t' Hc Hc'). discriminate.
Qed.

Lemma stream_loop_one st c :
  stream_loop frame st [c]
  = match exit (feed frame st c) with
    | Goes => with_exit (feed frame st c) Leaves
    | _ => feed frame st c
    end.
Proof.
  cbn [stream_loop]. destruct (feed frame st c) as [ys ps l x] eqn:Hf. cbn.
  destruct x; try reflexivity. unfold before, stop, with_exit. cbn.
  rewrite !app_nil_r. reflexivity.
Qed.

(** Where the chunk boundaries fall does not matter as long as no
    boundary stops the loop. *)
Lemma stream_loop_concat chunks :
  forall st,
    taken_in frame st chunks ->
    stream_loop frame st chunks = stream_loop frame st [concat chunks].
Proof.
  induction chunks as [|c chunks IH]; intros st H; [contradiction|].
  destruct chunks as [|c' chunks].
  - cbn [concat]. rewrite app_nil_r. reflexivity.
  - destruct H as [Hgo H].
    change (concat (c :: c' :: chunks)) with (c ++ concat (c' :: chunks)).
    rewrite stream_loop_one.
    rewrite (feed_app st c _ Hgo (taken_in_decodes _ _ H)).
    change (stream_loop frame st (c :: c' :: chunks))
      with (match exit (feed frame st c) with
            | Goes => before (yielded (feed frame st c))
                        (printed_lines (feed frame st c))
                        (stream_loop frame (locals (feed frame st c)) (c' :: chunks))
            | _ => feed frame st c
            end).
    rewrite Hgo. rewrite (IH _ H). rewrite stream_loop_one.
    cbn [before exit].
    destruct (exit (feed frame (locals (feed frame st c)) (concat (c' :: chunks))));
      reflexivity.
Qed.

End ChunkBoundaries.

Lemma completion_frame_blind (E : Externals) : buffer_blind completion_frame.
Proof.
  split.
  - intros st f pr ev st'. unfold completion_frame, load_frame.
    destruct (json_loads f) as [d|]; [|destruct (data st) as [d|]];
      try (intros H; discriminate H);
      destruct (check_error d); cbn [bind]; intros H; try discriminate H;
      injection H as _ _ <-; reflexivity.
  - intros st b f. unfold completion_frame, load_frame.
    destruct (json_loads f) as [d|]; [|cbn [data set_current_chunk];
                                        destruct (data st) as [d|]];
      try reflexivity; destruct (check_error d); reflexivity.
Qed.

Lemma chat_frame_blind (E : Externals) : buffer_blind chat_frame.
Proof.
  split.
  - intros st f pr ev st'. unfold chat_frame, load_frame.
    destruct (json_loads f) as [d|]; [|destruct (data st) as [d|]];
      try (intros H; discriminate H);
      destruct (check_error d); cbn [bind]; try (intros H; discriminate H);
      destruct (py_getitem d (str "choices")) as [cs|]; cbn [bind];
      try (intros H; discriminate H);
      destruct (py_iter cs) as [l|]; cbn [bind]; try (intros H; discriminate H);
      destruct (chat_choices ([], received_text st) l) as [r|]; cbn [bind];
      intros H; try discriminate H; injection H as _ _ <-; reflexivity.
  - intros st b f. unfold chat_frame, load_frame.
    destruct (json_loads f) as [d|]; [|cbn [data set_current_chunk];
                                        destruct (data st) as [d|]];
      try reflexivity;
      destruct (check_error d); cbn [bind]; try reflexivity;
      destruct (py_getitem d (str "choices")) as [cs|]; cbn [bind];
      try reflexivity;
      destruct (py_iter cs) as [l|]; cbn [bind]; try reflexivity;
      cbn [received_text set_current_chunk];
      destruct (chat_choices ([], received_text st) l) as [r|]; reflexivity.
Qed.

(** C1, as amended: two ways of cutting the same byte sequence into
    chunks give the same decoded frames, the same printed lines, the same
    buffer and the same end of the loop, for the decode loop of
    [completion_api] and of [chat_api] alike, provided that under either
    cutting every chunk before the last is taken in with the loop going on
    (it decodes as UTF-8 and the loop neither stops on a buffer that ends
    with the sentinel nor ends the generator) and the last chunk
    decodes. *)
Theorem C1_chunk_boundaries (E : Externals) frame st chunks1 chunks2 :
  frame = completion_frame \/ frame = chat_frame ->
  concat chunks1 = concat chunks2 ->
  taken_in frame st chunks1 ->
  taken_in frame st chunks2 ->
  stream_loop frame st chunks1 = stream_loop frame st chunks2.
Proof.
  intros Hframe Hcat H1 H2.
  assert (Hblind : buffer_blind frame).
  { destruct Hframe as [-> | ->];
      [apply completion_frame_blind | apply chat_frame_blind]. }
  rewrite (stream_loop_concat frame Hblind chunks1 st H1).
  rewrite (stream_loop_concat frame Hblind chunks2 st H2).
  rewrite Hcat. reflexivity.
Qed.

Lemma C1_chunk_boundaries_witness :
  stream_loop completion_frame (initial None)
    [wire "data: {'id': 1}~~da"; wire "ta: {'id': 2}~"; wire "~data: [DONE]~~"]
  = stream_loop completion_frame (initial None)
      [wire "data: {'id': 1}~~data: {'id': 2}~~data: [DONE]~~"] /\
  yielded (stream_loop completion_frame (initial None)
             [wire "data: {'id': 1}~~data: {'id': 2}~~data: [DONE]~~"])
  = [JDict [(str "id", JInt 1)]; JDict [(str "id", JInt 2)]].
Proof.
  split; [|reflexivity].
  apply (@C1_chunk_boundaries sample_externals completion_frame (initial None)).
  - left. reflexivity.
  - reflexivity.
  - cbn [taken_in]. split; [reflexivity|]. split; [reflexivity|].
    vm_compute. discriminate.
  - cbn [taken_in]. vm_compute. discriminate.
Defined.

(** C1, as stated, fails.  The same bytes cut after the text [[DONE]]
    of a frame, or inside the two bytes of a character, decode to no frame
    at all, where the bytes in one chunk decode to one frame. *)
Lemma C1_counterexample :
  concat [wire "data: {'text': '[DONE]"; wire "'}~~data: [DONE]~~"]
  = concat [wire "data: {'text': '[DONE]'}~~data: [DONE]~~"] /\
  yielded (stream_loop completion_frame (initial None)
             [wire "data: {'text': '[DONE]'}~~data: [DONE]~~"])
  = [JDict [(str "text", JStr (str "[DONE]"))]] /\
  yielded (stream_loop completion_frame (initial None)
             [wire "data: {'text': '[DONE]"; wire "'}~~data: [DONE]~~"])
  = [] /\
  concat [wire "data: {'text': '" ++ [Byte.xc3];
          [Byte.xa9] ++ wire "'}~~data: [DONE]~~"]
  = concat [wire "data: {'text': '" ++ [Byte.xc3; Byte.xa9]
            ++ wire "'}~~data: [DONE]~~"] /\
  yielded (stream_loop completion_frame (initial None)
             [wire "data: {'text': '" ++ [Byte.xc3; Byte.xa9]
              ++ wire "'}~~data: [DONE]~~"])
  = [JDict [(str "text", JStr [233%N])]] /\
  stream_loop completion_frame (initial None)
    [wire "data: {'text': '" ++ [Byte.xc3];
     [Byte.xa9] ++ wire "'}~~data: [DONE]~~"]
  = stop (initial None) (Ends (Raised UnicodeDecodeError)).
Proof. vm_compute. repeat split. Qed.

(** ** The decode loop comes to an end *)

Lemma feed_has_fuel (E : Externals) frame st chunk :
  buffer_blind frame -> exit (feed frame st chunk) <> Ends FuelExhausted.
Proof.
  intros Hb. unfold feed. destruct (utf8_decode chunk) as [t|]; [|cbn; discriminate].
  cbn zeta. set (st1 := set_current_chunk st (current_chunk st ++ t)).
  pose proof (drain_has_fuel frame Hb (S (length (current_chunk st1))) st1
                (Nat.lt_succ_diag_r _)) as Hd.
  remember (drain frame (S (length (current_chunk st1))) st1) as r eqn:Hr.
  clear Hr. destruct (exit r) eqn:Hx; try (rewrite Hx; exact Hd).
  destruct (endswith (strip (current_chunk st1)) DONE); cbn; [discriminate|].
  rewrite Hx. discriminate.
Qed.

Lemma stream_loop_has_fuel (E : Externals) frame chunks :
  buffer_blind frame ->
  forall st, exit (stream_loop frame st chunks) <> Ends FuelExhausted.
Proof.
  intros Hb. induction chunks as [|c chunks IH]; intros st; [cbn; discriminate|].
  cbn [stream_loop].
  pose proof (feed_has_fuel E frame st c Hb) as Hf.
  destruct (exit (feed frame st c)) eqn:Hx; try (rewrite Hx; exact Hf).
  cbn [before exit]. apply IH.
Qed.

Lemma after_stream_has_fuel (E : Externals) st : after_stream st <> FuelExhausted.
Proof.
  unfold after_stream. destruct (str_eqb (strip (current_chunk st)) DONE);
    [discriminate|].
  destruct (json_loads (strip (current_chunk st))); [|discriminate].
  match goal with |- match ?x with _ => _ end <> _ => destruct x end; discriminate.
Qed.

Lemma streaming_has_fuel (E : Externals) env frame units kwargs d chunks :
  buffer_blind frame ->
  result_ (streaming env frame units kwargs d chunks) <> FuelExhausted.
Proof.
  intros Hb. unfold streaming.
  destruct (get_endpoint_and_headers env kwargs) as [[[ep hd]|e] kw'];
    [|cbn; discriminate].
  pose proof (stream_loop_has_fuel E frame chunks Hb (initial d)) as Hs.
  destruct (exit (stream_loop frame (initial d) chunks)) as [| |o] eqn:Hx; cbn.
  - apply after_stream_has_fuel.
  - apply after_stream_has_fuel.
  - intros ->. apply Hs. reflexivity.
Qed.

(** The inner [while] loop always comes to an end: whatever the request
    and whatever the server sends, the generators end by returning or by
    raising, and the bound of the model on the number of turns of the loop
    is never met. *)
Theorem decode_loop_terminates (E : Externals) env kwargs chunks :
  result_ (complete env kwargs chunks) <> FuelExhausted /\
  result_ (chat_api env kwargs chunks) <> FuelExhausted /\
  result_ (completion_api env kwargs chunks) <> FuelExhausted.
Proof.
  assert (Hc : result_ (chat_api env kwargs chunks) <> FuelExhausted).
  { unfold chat_api.
    destruct (prompt kwargs) as [p|]; [|cbn; discriminate].
    destruct (logit_bias kwargs); [cbn; discriminate|].
    destruct p as [|prompt0 rest]; [cbn; discriminate|].
    destruct (echo (pop_timeout kwargs)) as [echo_|]; [|cbn; discriminate].
    cbn [after_yield result_].
    destruct (get_max_tokens kwargs =? 0)%Z; [cbn; discriminate|].
    destruct (negb (length (prompt0 :: rest) =? 1)); [cbn; discriminate|].
    destruct (chat_messages prompt0) as [msgs pr].
    cbn [after_print result_].
    destruct (logprobs (pop_timeout kwargs)); [|cbn; discriminate].
    apply streaming_has_fuel. apply chat_frame_blind. }
  assert (Hp : result_ (completion_api env kwargs chunks) <> FuelExhausted).
  { unfold completion_api.
    destruct (prompt kwargs) as [p|]; [|cbn; discriminate].
    apply streaming_has_fuel. apply completion_frame_blind. }
  split; [|split; assumption].
  unfold complete.
  destruct (startswith (model kwargs) (str "gpt-3.5-turbo")
            || py_in (str "gpt-4") (model kwargs)); assumption.
Qed.

(** ** A well-formed event stream *)


Lemma py_in_middle sub a b : py_in sub (a ++ sub ++ b) = true.
Proof.
  induction a as [|c a IH].
  - cbn [app]. destruct (sub ++ b) as [|d l] eqn:Hl.
    + destruct sub; [reflexivity | discriminate Hl].
    + cbn [py_in]. rewrite <- Hl, startswith_self_app. reflexivity.
  - cbn [app py_in]. rewrite IH. apply orb_true_r.
Qed.

Lemma lstrip_nonspace c s : isspace c = false -> lstrip (c :: s) = c :: s.
Proof. intros H. cbn. rewrite H. reflexivity. Qed.

(** A text that begins and ends with a character that is no whitespace,
    followed by line feeds, is stripped to itself. *)
Lemma strip_line c x e nl :
  isspace c = false -> isspace e = false ->
  Forall (fun n => isspace n = true) nl ->
  strip (c :: x ++ e :: nl) = c :: x ++ [e].
Proof.
  intros Hc He Hnl. unfold strip, rstrip. rewrite (lstrip_nonspace c _ Hc).
  assert (H : forall l t, Forall (fun n => isspace n = true) l ->
                          lstrip (l ++ e :: t) = e :: t).
  { intros l t Hl. induction Hl as [|n l Hn _ IH].
    - cbn. rewrite He. reflexivity.
    - cbn. rewrite Hn. exact IH. }
  assert (Hre : rev (c :: x ++ e :: nl) = rev nl ++ e :: rev (c :: x)).
  { change (c :: x ++ e :: nl) with ((c :: x) ++ e :: nl).
    rewrite rev_app_distr. cbn [rev]. rewrite <- app_assoc. reflexivity. }
  rewrite Hre, (H (rev nl) _ (Forall_rev Hnl)).
  replace (e :: rev (c :: x)) with (rev ((c :: x) ++ [e]))
    by (rewrite rev_app_distr; reflexivity).
  rewrite rev_involutive. reflexivity.
Qed.











(** ** The code after the decode loop *)

Lemma lstrip_spaces ws rest :
  Forall (fun n => isspace n = true) ws -> lstrip (ws ++ rest) = lstrip rest.
Proof.
  induction 1 as [|n ws Hn _ IH]; [reflexivity|]. cbn. rewrite Hn. exact IH.
Qed.

Lemma strip_padded ws1 c x e ws2 :
  Forall (fun n => isspace n = true) ws1 ->
  Forall (fun n => isspace n = true) ws2 ->
  isspace c = false -> isspace e = false ->
  strip (ws1 ++ c :: x ++ e :: ws2) = c :: x ++ [e].
Proof.
  intros H1 H2 Hc He.
  assert (Hl : lstrip (ws1 ++ c :: x ++ e :: ws2) = c :: x ++ e :: ws2).
  { rewrite (lstrip_spaces ws1 _ H1). apply lstrip_nonspace. exact Hc. }
  pose proof (strip_line c x e ws2 Hc He H2) as Hs.
  unfold strip in Hs |- *. rewrite Hl. rewrite (lstrip_nonspace c _ Hc) in Hs.
  exact Hs.
Qed.

(** What is left in the buffer when the loop is over decides how the
    generator ends.  The sentinel, with any whitespace around it, ends it
    normally.  Text that is not JSON raises [OpenAIStreamError] with the
    buffer.  An object with an error message raises by the class of the
    message.  An object without [error] key, such as a last event that no
    sentinel followed, raises [KeyError]. *)
Theorem after_stream_outcomes (E : Externals) st :
  (forall ws1 ws2,
     Forall (fun n => isspace n = true) ws1 ->
     Forall (fun n => isspace n = true) ws2 ->
     current_chunk st = ws1 ++ DONE ++ ws2 ->
     after_stream st = Returned) /\
  (strip (current_chunk st) <> DONE ->
   json_loads (strip (current_chunk st)) = None ->
   after_stream st
   = Raised (OpenAIStreamError [str "Error in API response:"; current_chunk st])) /\
  (forall kv err m,
     strip (current_chunk st) <> DONE ->
     json_loads (strip (current_chunk st)) = Some (JDict kv) ->
     dict_get kv (str "error") = Some (JDict err) ->
     dict_get err (str "message") = Some (JStr m) ->
     after_stream st
     = Raised (if py_in (str "rate limit") (str_lower m)
               then OpenAIRateLimitError m else OpenAIStreamError [m])) /\
  (forall kv,
     strip (current_chunk st) <> DONE ->
     json_loads (strip (current_chunk st)) = Some (JDict kv) ->
     dict_get kv (str "error") = None ->
     py_in (str "rate limit") (str_lower []) = false ->
     after_stream st = Raised (KeyError (str "error"))).
Proof.
  split; [|split; [|split]].
  - intros ws1 ws2 H1 H2 Hb. unfold after_stream. rewrite Hb.
    change (DONE ++ ws2) with (91%N :: str "DONE" ++ 93%N :: ws2).
    rewrite (strip_padded ws1 91%N (str "DONE") 93%N ws2 H1 H2 eq_refl eq_refl).
    reflexivity.
  - intros Hnd Hj. unfold after_stream.
    rewrite (str_eqb_neq _ _ Hnd), Hj. reflexivity.
  - intros kv err m Hnd Hj He Hm. unfold after_stream.
    rewrite (str_eqb_neq _ _ Hnd), Hj. cbn [py_get bind]. rewrite He.
    cbn [py_get bind]. rewrite Hm. cbn [bind].
    destruct (py_in (str "rate limit") (str_lower m)); [reflexivity|].
    cbn [py_getitem bind]. rewrite He. cbn [py_getitem bind]. rewrite Hm.
    reflexivity.
  - intros kv Hnd Hj He Hlow. unfold after_stream.
    rewrite (str_eqb_neq _ _ Hnd), Hj. cbn [py_get bind]. rewrite He.
    cbn [py_get bind dict_get]. rewrite Hlow.
    cbn [py_getitem bind]. rewrite He. reflexivity.
Qed.

Lemma after_stream_outcomes_witness :
  after_stream (sample_state " [DONE]~~") = Returned /\
  after_stream (sample_state "{'id': 2}~~") = Raised (KeyError (str "error")) /\
  after_stream (sample_state "{'error': {'message': 'Rate limit reached'}}")
  = Raised (OpenAIRateLimitError (str "Rate limit reached")) /\
  after_stream (sample_state "data: {'id': 2}")
  = Raised (OpenAIStreamError [str "Error in API response:";
                               wire_text "data: {'id': 2}"]).
Proof.
  pose proof (@after_stream_outcomes sample_externals (sample_state " [DONE]~~"))
    as (H1 & _).
  pose proof (@after_stream_outcomes sample_externals (sample_state "{'id': 2}~~"))
    as (_ & _ & _ & H4).
  pose proof (@after_stream_outcomes sample_externals
                (sample_state "{'error': {'message': 'Rate limit reached'}}"))
    as (_ & _ & H3 & _).
  pose proof (@after_stream_outcomes sample_externals (sample_state "data: {'id': 2}"))
    as (_ & H2 & _).
  split; [|split; [|split]].
  - apply (H1 [32%N] [10%N; 10%N]); [repeat constructor .. | reflexivity].
  - apply (H4 [(str "id", JInt 2)]); try reflexivity. vm_compute. discriminate.
  - apply (H3 [(str "error", JDict [(str "message", JStr (str "Rate limit reached"))])]
              [(str "message", JStr (str "Rate limit reached"))]
              (str "Rate limit reached")); try reflexivity.
    vm_compute. discriminate.
  - rewrite H2; [vm_compute; reflexivity | vm_compute; discriminate | reflexivity].
Defined.

(** ** Request shaping *)

Lemma role_of_tag_valid t :
  fst (role_of_tag t) = str "system" \/
  fst (role_of_tag t) = str "assistant" \/
  fst (role_of_tag t) = str "user".
Proof.
  unfold role_of_tag. destruct t as [tg|]; [|auto].
  destruct (str_eqb tg (str "system")); [auto|].
  destruct (str_eqb tg (str "assistant")); [auto|].
  destruct (str_eqb tg (str "user")); auto.
Qed.

Lemma get_endpoint_and_headers_body (E : Externals) env kwargs r body :
  get_endpoint_and_headers env kwargs = (r, body) ->
  body = {| model := model kwargs; prompt := prompt kwargs;
            messages := messages kwargs; max_tokens := max_tokens kwargs;
            timeout := timeout kwargs; echo := echo kwargs;
            logprobs := logprobs kwargs; logit_bias := logit_bias kwargs;
            api_config := None; other := other kwargs |}.
Proof.
  unfold get_endpoint_and_headers.
  destruct (get_azure_config env (model kwargs) _) as [[cfg|]|e];
    [| destruct (cfg_endpoint _) |]; intros H; injection H as _ <-; reflexivity.
Qed.

(** Every request [chat_api] posts is for a single prompt without logit
    bias and with [max_tokens] other than 0; its body carries the messages
    made from that prompt, each with one of the three roles, in place of the
    prompt, and none of the keys [logprobs], [echo], [timeout] and
    [api_config]; the other keys are passed on as they came. *)
Theorem chat_request_shape (E : Externals) env kwargs chunks ep hd body :
  In (Post ep hd body) (effects (chat_api env kwargs chunks)) ->
  exists prompt0,
    prompt kwargs = Some [prompt0] /\
    logit_bias kwargs = None /\
    get_max_tokens kwargs <> 0%Z /\
    body = {| model := model kwargs; prompt := None;
              messages := Some (fst (chat_messages prompt0));
              max_tokens := max_tokens kwargs; timeout := None; echo := None;
              logprobs := None; logit_bias := None; api_config := None;
              other := other kwargs |} /\
    Forall (fun m => role m = str "system" \/ role m = str "assistant" \/
                     role m = str "user")
           (fst (chat_messages prompt0)).
Proof.
  unfold chat_api.
  destruct (prompt kwargs) as [p|]; [|contradiction].
  destruct (logit_bias kwargs) eqn:Hlb; [contradiction|].
  destruct p as [|prompt0 rest]; [contradiction|].
  destruct (echo (pop_timeout kwargs)) as [echo_|]; [|contradiction].
  cbn [after_yield effects].
  destruct (Z.eqb_spec (get_max_tokens kwargs) 0) as [|Hmax]; [contradiction|].
  destruct rest as [|x rest]; [|contradiction]. cbn [length Nat.eqb negb].
  destruct (chat_messages prompt0) as [msgs pr] eqn:Hmsgs.
  cbn [after_print effects].
  destruct (logprobs (pop_timeout kwargs)); [|contradiction].
  intros Hin. apply streaming_post in Hin.
  apply get_endpoint_and_headers_body in Hin. cbn in Hin.
  exists prompt0. split; [reflexivity|]. split; [reflexivity|].
  split; [exact Hmax|]. rewrite ?Hlb in Hin.
  pose proof (chat_messages_segments prompt0) as Hs.
  rewrite Hmsgs in Hs |- *. cbn [fst]. split; [exact Hin|].
  injection Hs as -> _.
  apply Forall_forall. intros m Hm. apply in_map_iff in Hm as (sg & <- & _).
  apply role_of_tag_valid.
Qed.

Lemma chat_request_shape_witness :
  exists prompt0,
    prompt (sample_chat_kwargs "gpt-4") = Some [prompt0] /\
    fst (chat_messages prompt0) = [{| role := str "user"; content := str "Hello" |}].
Proof.
  destruct (@chat_request_shape sample_externals [] (sample_chat_kwargs "gpt-4") []
              chat_url bearer_headers
              {| model := str "gpt-4"; prompt := None;
                 messages := Some [{| role := str "user"; content := str "Hello" |}];
                 max_tokens := Some 16%Z; timeout := None; echo := None;
                 logprobs := None; logit_bias := None; api_config := None;
                 other := [] |})
    as (prompt0 & Hp & _ & _ & Hb & _).
  - vm_compute. auto.
  - exists prompt0. split; [exact Hp|].
    injection Hp as <-. reflexivity.
Defined.

(** Every request [completion_api] posts carries the keyword arguments
    as they came, the prompt array included, without the keys [timeout] and
    [api_config]. *)
Theorem completion_request_shape (E : Externals) env kwargs chunks ep hd body :
  In (Post ep hd body) (effects (completion_api env kwargs chunks)) ->
  body = {| model := model kwargs; prompt := prompt kwargs;
            messages := messages kwargs; max_tokens := max_tokens kwargs;
            timeout := None; echo := echo kwargs; logprobs := logprobs kwargs;
            logit_bias := logit_bias kwargs; api_config := None;
            other := other kwargs |}.
Proof.
  intros Hin.
  destruct (completion_api_effects E env kwargs chunks) as [H0|(p & Hp & He)].
  - rewrite H0 in Hin. contradiction.
  - rewrite He in Hin. apply streaming_post in Hin.
    apply get_endpoint_and_headers_body in Hin. exact Hin.
Qed.

Lemma completion_request_shape_witness :
  sample_completion_kwargs 16
  = {| model := model (sample_completion_kwargs 16);
       prompt := prompt (sample_completion_kwargs 16);
       messages := None; max_tokens := Some 16%Z; timeout := None;
       echo := None; logprobs := None; logit_bias := None; api_config := None;
       other := [] |}.
Proof.
  apply (@completion_request_shape sample_externals []
           (sample_completion_kwargs 16) [] completions_url bearer_headers).
  vm_compute. auto.
Defined.

(** With [echo] set, the first event of [chat_api] is the prompt echoed
    with its tokens, whatever [max_tokens] is and whatever the server sends;
    when [max_tokens] is 0 it is the only event, and the generator returns
    without acquiring capacity or posting a request. *)
Theorem echo_event_first (E : Externals) env kwargs chunks prompt0 rest :
  prompt kwargs = Some (prompt0 :: rest) ->
  logit_bias kwargs = None ->
  echo kwargs = Some true ->
  (exists later,
     events (chat_api env kwargs chunks)
     = echo_event prompt0 (tokenize prompt0) :: later) /\
  (get_max_tokens kwargs = 0%Z ->
   chat_api env kwargs chunks
   = {| effects := []; events := [echo_event prompt0 (tokenize prompt0)];
        output := []; result_ := Returned |}).
Proof.
  intros Hp Hlb He. unfold chat_api. rewrite Hp, Hlb.
  change (echo (pop_timeout kwargs)) with (echo kwargs). rewrite He.
  split.
  - eexists. cbn [after_yield events app]. reflexivity.
  - intros ->. reflexivity.
Qed.

Lemma echo_event_first_witness :
  chat_api [] sample_echo_kwargs [wire "data: [DONE]~~"]
  = {| effects := [];
       events := [echo_event (str "Hi") [str "H"; str "i"]];
       output := []; result_ := Returned |}.
Proof.
  apply (proj2 (@echo_event_first sample_externals [] sample_echo_kwargs
                  [wire "data: [DONE]~~"] (str "Hi") []
                  eq_refl eq_refl eq_refl)).
  reflexivity.
Defined.

(** ** Endpoint resolution *)

(** An endpoint override of the form [azure:rest] is rewritten to
    [https:rest]; the key is the explicit one when given, else the one of the
    per-model environment variable, and when neither is there the resolution
    fails on its assertion.  The global environment switch is not looked at
    in this case. *)
Theorem azure_endpoint_override (E : Externals) env kwargs cfg rest :
  api_config kwargs = Some cfg ->
  cfg_endpoint cfg = Some (str "azure:" ++ rest) ->
  fst (get_endpoint_and_headers env kwargs)
  = match cfg_azure_api_key cfg with
    | Some key => Ok (str "https:" ++ rest, api_key_headers key)
    | None =>
        match env_get env (azure_variable (model kwargs) "_KEY") with
        | Some key => Ok (str "https:" ++ rest, api_key_headers key)
        | None => Raise AssertionError
        end
    end.
Proof.
  intros Hc He. unfold get_endpoint_and_headers, get_azure_config.
  rewrite Hc, He. rewrite startswith_self_app.
  change (skipn 6 (str "azure:" ++ rest)) with rest.
  destruct (cfg_azure_api_key cfg) as [key|]; [reflexivity|].
  unfold azure_variable.
  destruct (env_get env _) as [key|]; reflexivity.
Qed.

Lemma azure_endpoint_override_witness :
  fst (get_endpoint_and_headers [] sample_azure_kwargs)
  = Ok (str "https://host/deploy", api_key_headers (str "k1")).
Proof.
  apply (@azure_endpoint_override sample_externals [] sample_azure_kwargs
           {| cfg_endpoint := Some (str "azure://host/deploy");
              cfg_azure_api_key := Some (str "k1") |}
           (str "//host/deploy") eq_refl eq_refl).
Defined.

(** When the environment sets [OPENAI_API_TYPE] to [azure] and the
    override, if any, is not of the [azure:] form, endpoint and key both come
    from the per-model environment variables; a missing endpoint variable is
    a [KeyError], a missing key variable fails the assertion, and a plain
    custom endpoint is ignored. *)
Theorem azure_environment (E : Externals) env kwargs :
  azure_env env = true ->
  match endpoint_override kwargs with
  | Some ep => startswith ep (str "azure:") = false
  | None => True
  end ->
  fst (get_endpoint_and_headers env kwargs)
  = match env_get env (azure_variable (model kwargs) "_ENDPOINT") with
    | None => Raise (KeyError (azure_variable (model kwargs) "_ENDPOINT"))
    | Some endpoint =>
        match env_get env (azure_variable (model kwargs) "_KEY") with
        | None => Raise AssertionError
        | Some key => Ok (endpoint, api_key_headers key)
        end
    end.
Proof.
  intros Henv Hep. unfold get_endpoint_and_headers, get_azure_config.
  unfold azure_env in Henv. unfold endpoint_override in Hep.
  set (cfg := match api_config kwargs with
              | Some c => c
              | None => {| cfg_endpoint := None; cfg_azure_api_key := None |}
              end).
  assert (Hnone : match cfg_endpoint cfg with
                  | Some ep => if startswith ep (str "azure:") then Some ep else None
                  | None => None
                  end = None).
  { subst cfg. destruct (api_config kwargs) as [c|]; [|reflexivity].
    destruct (cfg_endpoint c) as [ep|]; [|reflexivity]. rewrite Hep. reflexivity. }
  rewrite Hnone.
  destruct (env_get env (str "OPENAI_API_TYPE")) as [t|]; [|discriminate Henv].
  rewrite Henv. unfold azure_variable.
  destruct (env_get env _) as [endpoint|]; [|reflexivity].
  destruct (env_get env _) as [key|]; reflexivity.
Qed.

Lemma azure_environment_witness :
  fst (get_endpoint_and_headers sample_azure_env (sample_chat_kwargs "gpt-3.5-turbo"))
  = Ok (str "https://svc/chat", api_key_headers (str "k2")).
Proof.
  apply (@azure_environment sample_externals sample_azure_env
           (sample_chat_kwargs "gpt-3.5-turbo") eq_refl I).
Defined.

(** A plain custom endpoint, without alternate-cloud configuration, is
    used without authorization: [http://] is put in front of it unless it
    ends with [http], and [/completions] is appended, whatever the model. *)
Theorem custom_endpoint (E : Externals) env kwargs cfg ep :
  azure_env env = false ->
  api_config kwargs = Some cfg ->
  cfg_endpoint cfg = Some ep ->
  startswith ep (str "azure:") = false ->
  fst (get_endpoint_and_headers env kwargs)
  = Ok ((if endswith ep (str "http") then ep else str "http://" ++ ep)
          ++ str "/completions",
        [json_header]).
Proof.
  intros Henv Hc He Hs. unfold get_endpoint_and_headers. rewrite Hc.
  rewrite get_azure_config_none by (rewrite ?He; auto).
  rewrite He. destruct (endswith ep (str "http")); reflexivity.
Qed.

Lemma custom_endpoint_witness :
  fst (get_endpoint_and_headers [] (sample_custom_kwargs "localhost:8080"))
  = Ok (str "http://localhost:8080/completions", [json_header]).
Proof.
  apply (@custom_endpoint sample_externals [] (sample_custom_kwargs "localhost:8080")
           {| cfg_endpoint := Some (str "localhost:8080");
              cfg_azure_api_key := None |}
           (str "localhost:8080") eq_refl eq_refl eq_refl eq_refl).
Defined.

(** ** The soft ceiling of the capacity *)

Lemma step_ceiling units M T s s' :
  Forall (fun u => (0 <= u <= M)%Z) units ->
  step units s s' ->
  total (capacity s) = T /\ (reserved (capacity s) < T + M)%Z ->
  total (capacity s') = T /\ (reserved (capacity s') < T + M)%Z.
Proof.
  intros Hu Hstep [Ht Hr].
  assert (Hnth : forall i u, nth_error units i = Some u -> (0 <= u <= M)%Z).
  { intros i u H. apply nth_error_In in H.
    exact (proj1 (Forall_forall _ units) Hu u H). }
  destruct Hstep as [s i u C' ms Hp Hi Hpoll | s i u C' Hp Hi Hpoll
                    | s i Hp | s i u how Hp Hi]; cbn.
  - unfold aenter_poll in Hpoll.
    destruct (reserved (capacity s) >=? total (capacity s))%Z; [|discriminate].
    injection Hpoll as <- _. auto.
  - unfold aenter_poll in Hpoll.
    destruct (Z.geb_spec (reserved (capacity s)) (total (capacity s))); [discriminate|].
    injection Hpoll as <-. cbn. specialize (Hnth i u Hi). split; lia.
  - auto.
  - specialize (Hnth i u Hi). split; [exact Ht | lia].
Qed.

(** The capacity is a soft ceiling: a stream is admitted only while
    [reserved] is below [total], so with reservations between 0 and [M]
    units, [reserved] stays below [total + M] in every state the streams can
    reach, and [total] never changes. *)
Theorem capacity_soft_ceiling (C : Capacity) (units : list Z) (M : Z) (s : system) :
  reserved C = 0%Z ->
  (0 < total C)%Z ->
  (0 <= M)%Z ->
  Forall (fun u => (0 <= u <= M)%Z) units ->
  reachable units (start C units) s ->
  total (capacity s) = total C /\
  (reserved (capacity s) < total C + M)%Z.
Proof.
  intros H0 Ht HM Hu Hreach.
  remember (start C units) as s0 eqn:Hs0.
  induction Hreach as [s|s s' s'' _ IH Hstep].
  - subst s. cbn. split; [reflexivity | lia].
  - apply (step_ceiling units M (total C) s' s'' Hu Hstep). apply IH. exact Hs0.
Qed.

Lemma capacity_soft_ceiling_witness :
  total (capacity sample_system_1) = 32000%Z /\
  (reserved (capacity sample_system_1) < 32000 + 512)%Z.
Proof.
  assert (Hu : Forall (fun u => (0 <= u <= 512)%Z) [512; 64]%Z)
    by (repeat constructor; lia).
  apply (capacity_soft_ceiling Capacity_initial [512; 64]%Z 512 sample_system_1
           eq_refl eq_refl ltac:(lia) Hu).
  apply (reach_step _ _ (start Capacity_initial [512; 64]%Z)).
  - apply reach_refl.
  - apply (step_enter [512; 64]%Z (start Capacity_initial [512; 64]%Z) 0 512
             {| total := 32000; reserved := 512 |}); reflexivity.
Defined.

(** Leaving the block undoes what entering it did: after [__aenter__]
    has returned, [__aexit__] with the same units puts [Capacity] back to
    what the admitting test found. *)
Theorem enter_then_exit (seen : list Capacity) (units : Z) n C' :
  aenter seen units = Some (n, C') ->
  nth_error seen n = Some (aexit C' units).
Proof.
  intros H. apply aenter_some in H as (C & Hn & _ & -> & _).
  rewrite Hn. f_equal. unfold aexit. cbn. destruct C as [t r]. cbn.
  f_equal. lia.
Qed.

Lemma enter_then_exit_witness :
  nth_error [{| total := 10; reserved := 12 |}; {| total := 10; reserved := 4 |}] 1
  = Some (aexit {| total := 10; reserved := 11 |} 7).
Proof.
  apply (enter_then_exit
           [{| total := 10; reserved := 12 |}; {| total := 10; reserved := 4 |}] 7 1
           {| total := 10; reserved := 11 |} eq_refl).
Defined.

(** ** Chunk boundaries can only cut the frames short *)

Lemma prefix_of_nil {A : Type} (b : list A) : prefix_of [] b.
Proof. exists b. reflexivity. Qed.

Lemma prefix_of_refl {A : Type} (a : list A) : prefix_of a a.
Proof. exists []. symmetry. apply app_nil_r. Qed.

Lemma prefix_of_app {A : Type} (x a b : list A) :
  prefix_of a b -> prefix_of (x ++ a) (x ++ b).
Proof. intros [more ->]. exists more. apply app_assoc. Qed.

Section Prefix.
Context {E : Externals}.
Variable frame : dstate -> pystr -> list printed * result (json * dstate).
Hypothesis frame_blind : buffer_blind frame.

(** The frames the inner loop yields from a buffer are the first of the
    frames it yields from the buffer with text appended. *)
Lemma drain_yields_prefix fuel :
  forall st t fuel2,
    length (current_chunk st) < fuel ->
    length (current_chunk st ++ t) < fuel2 ->
    prefix_of (yielded (drain frame fuel st)) (yielded (drain frame fuel2 (grow st t))).
Proof.
  induction fuel as [|fuel IH]; intros st t fuel2 H1 H2; [lia|].
  cbn [drain].
  destruct (extract (current_chunk st)) as [[[f rest]|]|e] eqn:Hx;
    try apply prefix_of_nil.
  destruct (extract_some _ _ _ Hx) as (p & c & Hb & Hf & Happ).
  pose proof (extract_shorter _ _ _ Hx) as Hlt.
  destruct fuel2 as [|fuel2]; [lia|].
  cbn [drain].
  change (current_chunk (grow st t)) with (current_chunk st ++ t).
  rewrite (Happ t).
  change (set_current_chunk (grow st t) (rest ++ t))
    with (set_current_chunk (set_current_chunk st rest) (rest ++ t)).
  rewrite length_app in H2.
  destruct (length (strip f) =? 0).
  - apply (IH (set_current_chunk st rest) t fuel2);
      [cbn; lia | cbn; rewrite length_app; lia].
  - destruct (str_eqb f DONE); [apply prefix_of_nil|].
    rewrite (proj2 frame_blind (set_current_chunk st rest) (rest ++ t) f).
    destruct (frame (set_current_chunk st rest) f) as [pr [[ev st']|e]] eqn:Hfr;
      cbn [fst snd]; [|apply prefix_of_nil].
    pose proof (proj1 frame_blind _ _ _ _ _ Hfr) as Hk. cbn in Hk.
    cbn [before yielded].
    replace (set_current_chunk st' (rest ++ t)) with (grow st' t)
      by (unfold grow; rewrite Hk; reflexivity).
    apply prefix_of_app. apply IH; [rewrite Hk; lia | rewrite length_app, Hk; lia].
Qed.

Lemma utf8_decode_app_inv c1 c2 t1 t :
  utf8_decode c1 = Some t1 -> utf8_decode (c1 ++ c2) = Some t ->
  exists t2, utf8_decode c2 = Some t2 /\ t = t1 ++ t2.
Proof.
  remember (length c1) as n eqn:Hn. revert c1 Hn t1 t.
  induction n as [n IH] using lt_wf_ind. intros c1 Hn t1 t H1 H.
  assert (Hrec : forall r c t1 t,
             length r < n ->
             option_map (cons c) (utf8_decode r) = Some t1 ->
             option_map (cons c) (utf8_decode (r ++ c2)) = Some t ->
             exists t2, utf8_decode c2 = Some t2 /\ t = t1 ++ t2).
  { intros r c u v Hlt Hu Hv.
    destruct (utf8_decode r) as [u'|] eqn:Hr; [|discriminate].
    destruct (utf8_decode (r ++ c2)) as [v'|] eqn:Hr2; [|discriminate].
    cbn in Hu, Hv. injection Hu as <-. injection Hv as <-.
    destruct (IH (length r) Hlt r eq_refl u' v' Hr Hr2) as (t2 & H2 & ->).
    exists t2. split; [exact H2 | reflexivity]. }
  destruct c1 as [|x0 r0].
  - cbn in H1. injection H1 as <-. exists t. split; [exact H | reflexivity].
  - change ((x0 :: r0) ++ c2) with (x0 :: r0 ++ c2) in H.
    rewrite utf8_decode_cons in H1, H. cbn zeta in H1, H.
    cbn [length] in Hn.
    destruct (Byte.to_N x0 <? 128)%N.
    { eapply Hrec; [|exact H1|exact H]. lia. }
    destruct (in_range 194 223 (Byte.to_N x0)).
    { destruct r0 as [|x1 r1]; [discriminate|]. cbn [app] in H.
      destruct (in_range 128 191 (Byte.to_N x1)); [|discriminate].
      eapply Hrec; [|exact H1|exact H]. cbn in Hn. lia. }
    destruct (in_range 224 239 (Byte.to_N x0)).
    { destruct r0 as [|x1 [|x2 r2]]; try discriminate. cbn [app] in H.
      destruct (in_range _ _ (Byte.to_N x1) && in_range 128 191 (Byte.to_N x2));
        [|discriminate].
      eapply Hrec; [|exact H1|exact H]. cbn in Hn. lia. }
    destruct (in_range 240 244 (Byte.to_N x0)); [|discriminate].
    destruct r0 as [|x1 [|x2 [|x3 r3]]]; try discriminate. cbn [app] in H.
    destruct (in_range _ _ (Byte.to_N x1) && in_range 128 191 (Byte.to_N x2)
              && in_range 128 191 (Byte.to_N x3)); [|discriminate].
    eapply Hrec; [|exact H1|exact H]. cbn in Hn. lia.
Qed.

Lemma stream_loop_yields_prefix chunks :
  forall st text,
    utf8_decode (concat chunks) = Some text ->
    prefix_of (yielded (stream_loop frame st chunks))
      (yielded (drain frame (S (length (current_chunk st ++ text))) (grow st text))).
Proof.
  induction chunks as [|c chunks IH]; intros st text Hdec; [apply prefix_of_nil|].
  cbn [stream_loop concat] in *.
  unfold feed. destruct (utf8_decode c) as [t1|] eqn:Hc; [|apply prefix_of_nil].
  destruct (utf8_decode_app_inv c (concat chunks) t1 text Hc Hdec) as (t2 & H2 & ->).
  cbn zeta. fold (grow st t1).
  set (r1 := drain frame (S (length (current_chunk (grow st t1)))) (grow st t1)).
  assert (Hpre : prefix_of (yielded r1)
                   (yielded (drain frame (S (length (current_chunk st ++ t1 ++ t2)))
                               (grow st (t1 ++ t2))))).
  { rewrite <- grow_grow. subst r1.
    apply drain_yields_prefix; cbn; rewrite ?length_app; lia. }
  destruct (exit r1) eqn:Hx1.
  - destruct (endswith (strip (current_chunk (grow st t1))) DONE).
    + cbn [with_exit exit yielded]. exact Hpre.
    + rewrite Hx1. cbn [before yielded].
      rewrite <- grow_grow.
      rewrite (drain_grow frame frame_blind _ (grow st t1) t2 _
                 (S (length (current_chunk (locals r1) ++ t2))) r1 eq_refl Hx1);
        [| lia | cbn; rewrite !length_app; lia | lia].
      cbn [before yielded]. apply prefix_of_app. apply IH. exact H2.
  - rewrite Hx1. exact Hpre.
  - rewrite Hx1. exact Hpre.
Qed.

End Prefix.

(** However a byte sequence that is valid UTF-8 is cut into chunks, the
    frames decoded from the chunks are the first of the frames decoded from
    the sequence in one chunk, in the same order: a chunk boundary can end
    the decoding early but never adds, changes or reorders a frame. *)
Theorem chunked_frames_prefix (E : Externals) frame st chunks :
  frame = completion_frame \/ frame = chat_frame ->
  utf8_decode (concat chunks) <> None ->
  prefix_of (yielded (stream_loop frame st chunks))
            (yielded (stream_loop frame st [concat chunks])).
Proof.
  intros Hframe Hdec.
  assert (Hblind : buffer_blind frame).
  { destruct Hframe as [-> | ->];
      [apply completion_frame_blind | apply chat_frame_blind]. }
  destruct (utf8_decode (concat chunks)) as [text|] eqn:Ht; [|congruence].
  pose proof (stream_loop_yields_prefix frame Hblind chunks st text Ht) as H.
  rewrite stream_loop_one.
  assert (Hy : forall x, yielded (match exit x with
                                  | Goes => with_exit x Leaves
                                  | _ => x
                                  end) = yielded x)
    by (intros x; destruct (exit x); reflexivity).
  rewrite Hy. unfold feed. rewrite Ht. cbn zeta.
  fold (grow st text).
  change (current_chunk (grow st text)) with (current_chunk st ++ text).
  set (r := drain frame _ (grow st text)) in *.
  destruct (exit r); [|exact H|exact H].
  destruct (endswith (strip (current_chunk st ++ text)) DONE); exact H.
Qed.

Lemma chunked_frames_prefix_witness :
  prefix_of
    (yielded (stream_loop completion_frame (initial None)
                [wire "data: {'id': 1}~~data: [DONE]";
                 wire "~~data: {'id': 2}~~data: [DONE]~~"]))
    (yielded (stream_loop completion_frame (initial None)
                [wire "data: {'id': 1}~~data: [DONE]~~data: {'id': 2}~~data: [DONE]~~"])).
Proof.
  apply (@chunked_frames_prefix sample_externals completion_frame (initial None)
           [wire "data: {'id': 1}~~data: [DONE]";
            wire "~~data: {'id': 2}~~data: [DONE]~~"]).
  - left. reflexivity.
  - vm_compute. discriminate.
Defined.

(** ** The chat response normaliser *)

Lemma zero_logprobs_aligned tokens :
  logprobs_lengths (zero_logprobs tokens)
  = [Some (length tokens); Some (length tokens); Some (length tokens);
     Some (length tokens)].
Proof.
  unfold logprobs_lengths, zero_logprobs. cbn. rewrite !length_map. reflexivity.
Qed.

(** A choice of a chat frame, given as an object with a [delta] object,
    an [index] and a [finish_reason].  A delta with text content becomes a
    choice with that text and the tokens of the text, the text being
    tokenized behind a space when no text has been received yet, and the text
    is added to the received text; an empty delta becomes a choice with empty
    text and no tokens; a delta with other keys only is dropped.  The four
    lists of the synthesised [logprobs] have one entry per token. *)
Theorem chat_delta_normalised (E : Externals) choices received cd delta index fr :
  dict_get cd (str "delta") = Some (JDict delta) ->
  dict_get cd (str "index") = Some index ->
  dict_get cd (str "finish_reason") = Some fr ->
  (forall text,
     dict_get delta (str "content") = Some (JStr text) ->
     chat_choice (choices, received) (JDict cd)
     = Ok (choices ++
           [normalised_choice text index fr
              (tokenize ((if str_eqb received [] then str " " else []) ++ text))],
           received ++ text)) /\
  (delta = [] ->
   chat_choice (choices, received) (JDict cd)
   = Ok (choices ++ [normalised_choice [] index fr []], received)) /\
  (delta <> [] -> dict_get delta (str "content") = None ->
   chat_choice (choices, received) (JDict cd) = Ok (choices, received)) /\
  (forall tokens,
     logprobs_lengths (zero_logprobs tokens)
     = [Some (length tokens); Some (length tokens); Some (length tokens);
        Some (length tokens)]).
Proof.
  intros Hd Hi Hf. split; [|split; [|split]].
  - intros text Hc. unfold chat_choice. cbn [py_getitem bind]. rewrite Hd.
    cbn [bind py_contains]. unfold dict_has. rewrite Hc. cbn [negb bind py_getitem].
    rewrite Hc. cbn [bind]. rewrite Hi. cbn [bind]. rewrite Hf. reflexivity.
  - intros ->. unfold chat_choice. cbn [py_getitem bind]. rewrite Hd.
    cbn [bind py_contains dict_has dict_get negb py_len length Nat.eqb py_getitem].
    rewrite Hi. cbn [bind]. rewrite Hf. reflexivity.
  - intros Hne Hc. unfold chat_choice. cbn [py_getitem bind]. rewrite Hd.
    cbn [bind py_contains]. unfold dict_has. rewrite Hc. cbn [negb bind py_len].
    rewrite (length_eqb_0 delta Hne). reflexivity.
  - intros tokens. apply zero_logprobs_aligned.
Qed.

Lemma chat_delta_normalised_witness :
  chat_choice ([], [])
    (JDict [(str "delta", JDict [(str "content", JStr (str "Hi"))]);
            (str "index", JInt 0); (str "finish_reason", JNull)])
  = Ok ([normalised_choice (str "Hi") (JInt 0) JNull [str " "; str "H"; str "i"]],
        str "Hi").
Proof.
  apply (proj1 (@chat_delta_normalised sample_externals [] []
                  [(str "delta", JDict [(str "content", JStr (str "Hi"))]);
                   (str "index", JInt 0); (str "finish_reason", JNull)]
                  [(str "content", JStr (str "Hi"))] (JInt 0) JNull
                  eq_refl eq_refl eq_refl)
           (str "Hi") eq_refl).
Defined.

(** ** The tokenizer adapter *)

Lemma bytes_repr_plain t :
  forallb plain_byte t = true -> bytes_repr_body t = map Byte.to_N t.
Proof.
  intros H. unfold bytes_repr_body.
  assert (Hq : existsb (N.eqb 39) (map Byte.to_N t) = false).
  { induction t as [|b t IH]; [reflexivity|].
    cbn [forallb] in H. apply andb_true_iff in H as [Hb Ht].
    cbn [map existsb]. rewrite (IH Ht), orb_false_r.
    unfold plain_byte in Hb. cbn zeta in Hb.
    destruct (N.eqb_spec 39 (Byte.to_N b)) as [He|]; [|reflexivity].
    rewrite <- He in Hb. discriminate Hb. }
  rewrite Hq. cbn [andb]. clear Hq.
  induction t as [|b t IH]; [reflexivity|].
  cbn [forallb] in H. apply andb_true_iff in H as [Hb Ht].
  cbn [map flat_map]. rewrite (IH Ht).
  unfold plain_byte in Hb. cbn zeta in Hb.
  set (c := Byte.to_N b) in *.
  apply andb_true_iff in Hb as [Hb H92]. apply andb_true_iff in Hb as [Hb H39].
  apply andb_true_iff in Hb as [H32 H127].
  apply negb_true_iff in H92, H39.
  rewrite H39, H92. cbn [orb].
  apply N.leb_le in H32. apply N.ltb_lt in H127.
  destruct (N.eqb_spec c 9); [lia|]. destruct (N.eqb_spec c 10); [lia|].
  destruct (N.eqb_spec c 13); [lia|].
  destruct (N.ltb_spec c 32); [lia|]. destruct (N.leb_spec 127 c); [lia|].
  reflexivity.
Qed.

Lemma no_backslash_no_escape s :
  existsb (N.eqb 92) s = false -> py_in (str "\x") s = false.
Proof.
  induction s as [|c s IH]; intros H; [reflexivity|].
  cbn [existsb] in H. apply orb_false_iff in H as [Hc Hs].
  cbn [py_in]. rewrite (IH Hs), orb_false_r.
  cbn -[N.eqb]. rewrite Hc. reflexivity.
Qed.

(** Tokens made of printable ASCII bytes other than the apostrophe and
    the backslash come out of [tokenize] as their own text, unmarked: the
    [bytes:] mark is for tokens whose representation has an escape. *)
Theorem tokenize_plain (E : Externals) text :
  Forall (fun t => forallb plain_byte t = true) (tokenizer_bytes text) ->
  tokenize text = map (map Byte.to_N) (tokenizer_bytes text).
Proof.
  unfold tokenize. induction 1 as [|t ts Ht _ IH]; [reflexivity|].
  cbn [map]. rewrite IH. f_equal.
  rewrite (bytes_repr_plain t Ht).
  rewrite no_backslash_no_escape; [reflexivity|].
  clear -Ht. induction t as [|b t IH]; [reflexivity|].
  cbn [forallb] in Ht. apply andb_true_iff in Ht as [Hb Ht].
  cbn [map existsb]. rewrite (IH Ht), orb_false_r.
  unfold plain_byte in Hb. cbn zeta in Hb.
  destruct (N.eqb_spec 92 (Byte.to_N b)) as [He|]; [|reflexivity].
  rewrite <- He in Hb. discriminate Hb.
Qed.

Lemma tokenize_plain_witness :
  @tokenize sample_externals (str "say hi") = map (fun c => [c]) (str "say hi").
Proof.
  rewrite (@tokenize_plain sample_externals (str "say hi")).
  - reflexivity.
  - repeat constructor.
Defined.

(** ** A buffer of delimiters only *)

Lemma cut_at_start sep r : sep <> [] -> cut (sep ++ r) sep = Some ([], r).
Proof.
  intros Hsep. destruct (sep ++ r) as [|c l] eqn:Hl.
  - destruct sep; [congruence | discriminate Hl].
  - cbn [cut]. rewrite <- Hl, startswith_self_app, skipn_length_app. reflexivity.
Qed.

Lemma py_split_delimiters n :
  py_split (concat (repeat NL_DATA n)) NL_DATA = repeat [] (S n).
Proof.
  induction n as [|n IH]; [reflexivity|].
  cbn [repeat concat]. rewrite (py_split_cut _ NL_DATA NL_DATA_not_nil).
  rewrite (cut_at_start NL_DATA _ NL_DATA_not_nil), IH. reflexivity.
Qed.

Lemma drop_empty_all_empty n : drop_empty (repeat [] n) = Raise IndexError.
Proof. induction n as [|n IH]; [reflexivity | exact IH]. Qed.

(** When the buffer consists of frame delimiters and nothing else, every
    fragment of the split is empty, the loop that drops empty fragments runs
    off the list, and the generator ends with [IndexError]. *)
Theorem delimiter_only_buffer (E : Externals) frame st fuel n :
  current_chunk st = concat (repeat NL_DATA (S n)) ->
  drain frame (S fuel) st = stop st (Ends (Raised IndexError)).
Proof.
  intros Hb. cbn [drain]. unfold extract. rewrite Hb.
  replace (py_in DATA (concat (repeat NL_DATA (S n)))) with true.
  - rewrite py_split_delimiters, drop_empty_all_empty. reflexivity.
  - symmetry. cbn [repeat concat].
    change (NL_DATA ++ concat (repeat NL_DATA n))
      with ([10%N] ++ DATA ++ concat (repeat NL_DATA n)).
    apply py_in_middle.
Qed.

Lemma delimiter_only_buffer_witness :
  result_ (completion_api [] (sample_completion_kwargs 16)
             [wire "data: {'id': 1}~data: ~data: "; wire "{'id': 2}~~data: [DONE]~~"])
  = Raised IndexError /\
  drain completion_frame 1 (sample_state "~data: ~data: ")
  = stop (sample_state "~data: ~data: ") (Ends (Raised IndexError)).
Proof.
  split; [reflexivity|].
  apply (@delimiter_only_buffer sample_externals completion_frame
           (sample_state "~data: ~data: ") 0 1).
  reflexivity.
Defined.

(** ** Segments of an arbitrary prompt *)

Lemma tag_body_spec s t r : tag_body s = Some (t, r) -> s = t ++ str "/>" ++ r.
Proof.
  revert t r. induction s as [|c s IH]; intros t r H.
  - cbn in H. discriminate H.
  - cbn [tag_body] in H. destruct (startswith (c :: s) (str "/>")) eqn:Hs.
    + injection H as <- <-. apply (startswith_split _ _ Hs).
    + destruct (c =? 10)%N; [discriminate|].
      destruct (tag_body s) as [[t' r']|] eqn:Hb; [|discriminate].
      injection H as <- <-. cbn. f_equal. apply IH. reflexivity.
Qed.

Lemma match_tag_spec s t r : match_tag s = Some (t, r) -> s = marker t ++ r.
Proof.
  unfold match_tag, marker. intros H.
  destruct (startswith s (str "<lmql:")) eqn:Hs; [|discriminate].
  apply tag_body_spec in H. apply startswith_split in Hs.
  rewrite Hs. change (length (str "<lmql:")) with 6. rewrite H.
  rewrite <- !app_assoc. reflexivity.
Qed.

Lemma search_tag_spec s b t r :
  search_tag s = Some (b, t, r) -> s = b ++ marker t ++ r.
Proof.
  revert b t r. induction s as [|c s IH]; intros b t r H;
    rewrite search_tag_eq in H.
  - destruct (match_tag []) as [[t' r']|] eqn:Hm; [|discriminate].
    injection H as <- <- <-. apply match_tag_spec. exact Hm.
  - destruct (match_tag (c :: s)) as [[t' r']|] eqn:Hm.
    + injection H as <- <- <-. apply match_tag_spec. exact Hm.
    + destruct (search_tag s) as [[[b' t'] r']|] eqn:Hs; [|discriminate].
      injection H as <- <- <-. cbn. f_equal. apply IH. reflexivity.
Qed.

Lemma finditer_start_bound fuel :
  forall pos s m,
    In m (finditer_fuel fuel pos s) -> m_start m < pos + length s.
Proof.
  induction fuel as [|fuel IH]; intros pos s m Hin; [contradiction|].
  cbn [finditer_fuel] in Hin.
  destruct (search_tag s) as [[[b t] r]|] eqn:Hs; [|contradiction].
  apply search_tag_spec in Hs.
  assert (Hlen : length s = length b + 6 + length t + 2 + length r).
  { rewrite Hs, !length_app, length_marker. lia. }
  destruct Hin as [<- | Hin].
  - cbn. lia.
  - apply IH in Hin. lia.
Qed.

Lemma slice_not_nil s a b : a < b -> a < length s -> slice s a b <> [].
Proof.
  intros Hab Ha. unfold slice.
  destruct (skipn a s) as [|c l] eqn:Hsk.
  - apply (f_equal (@length N)) in Hsk. rewrite length_skipn in Hsk. cbn in Hsk. lia.
  - destruct (b - a) as [|k] eqn:Hk; [lia|]. discriminate.
Qed.

Lemma seg_fold_nonempty s ms :
  forall st,
    Forall (fun m => m_start m < length s) ms ->
    Forall (fun sg => text sg <> []) (segments st) ->
    Forall (fun sg => text sg <> []) (segments (fold_left (seg_step s) ms st)).
Proof.
  induction ms as [|m ms IH]; intros st Hms Hst; [exact Hst|].
  inversion Hms as [|? ? Hm Hms']; subst.
  cbn [fold_left]. apply IH; [exact Hms'|].
  unfold seg_step. cbn [segments].
  destruct (Nat.ltb_spec 0 (m_start m - offset st)) as [Hlt|_]; [|exact Hst].
  apply Forall_app. split; [exact Hst|].
  constructor; [|constructor]. cbn [text].
  apply slice_not_nil; lia.
Qed.

(** For every prompt, [tagged_segments] returns at least one segment, and
    all its segments except possibly the last have non-empty text: only the
    text after the last marker can give an empty message. *)
Theorem segments_nonempty_but_last (s : pystr) :
  exists front last,
    tagged_segments s = front ++ [last] /\
    Forall (fun sg => text sg <> []) front.
Proof.
  unfold tagged_segments.
  eexists _, _. split; [reflexivity|].
  apply seg_fold_nonempty; [|constructor].
  apply Forall_forall. intros m Hm. unfold finditer in Hm.
  apply finditer_start_bound in Hm. lia.
Qed.
